(** * A shallow embedding of [huffman.py]

    The development follows the class [HuffmanCoding] of [src/huffman.py]:
    the frequency dictionary, the [heapq]-based construction of the code
    tree, the derivation of the two code tables, the padded bit string and
    its packing into bytes, and the reverse path taken by [decompress].

    Conventions of the embedding.
    - A Python [str] made of the characters '0' and '1' is a [list bool]
      ([false] is '0', [true] is '1'); every such string in the source is
      built from the literals "0" and "1" and from binary formatting.
    - Python integers are unbounded; counts, lengths and byte values are
      never negative and are embedded as [nat].
    - A call either returns a value or raises; the outcome is a [result],
      the exception being identified by the name of its class.
    - A list used as an array is read with stdpp's lookup and written
      with stdpp's insert; a read out of range raises [IndexError]. *)

From Stdlib Require Import Ascii ZifyNat.
From stdpp Require Import strings.
From stdpp Require Import base countable list gmap.

(** ** Outcomes of a call *)

Inductive result (A : Type) : Type :=
| Ok (a : A)
| Raise (exc : string).
Arguments Ok {A} a.
Arguments Raise {A} exc.

#[global] Instance result_ret : MRet result := λ A a, Ok a.
#[global] Instance result_bind : MBind result := λ A B f m,
  match m with
  | Ok a => f a
  | Raise e => Raise e
  end.

Definition IndexError : string := "IndexError"%string.
Definition KeyError : string := "KeyError"%string.
Definition ValueError : string := "ValueError"%string.

(** ** Bit strings *)

Abbreviation bits := (list bool).

(** [s[start:stop]] for non-negative bounds. *)
Definition slice {A} (s : list A) (start stop : nat) : list A :=
  take (stop - start) (drop start s).

(** The bound that Python computes for the stop index [-n] on a sequence
    of length [len]: [-0] is [0], and a negative index below the start of
    the sequence is clipped to [0]. *)
Definition neg_stop (n len : nat) : nat :=
  if decide (n = 0) then 0 else len - n.

(** [range(0, stop, step)] *)
Definition range_step (stop step : nat) : list nat :=
  (λ k, k * step) <$> seq 0 ((stop + step - 1) / step).

Fixpoint pos_bin (p : positive) : bits :=
  match p with
  | xH => [true]
  | xO p' => pos_bin p' ++ [false]
  | xI p' => pos_bin p' ++ [true]
  end.

(** ["{0:b}".format(n)] *)
Definition bin (n : nat) : bits :=
  match N.of_nat n with
  | N0 => [false]
  | Npos p => pos_bin p
  end.

(** ["{0:08b}".format(n)]: binary, zero-filled on the left to a width of
    at least 8. *)
Definition format_08b (n : nat) : bits :=
  replicate (8 - length (bin n)) false ++ bin n.

Definition bit_value (b : bool) : nat := if b then 1 else 0.

(** [int(s, 2)]; the empty string is not a numeral. *)
Definition int2 (s : bits) : result nat :=
  match s with
  | [] => Raise ValueError
  | _ => Ok (foldl (λ acc b, 2 * acc + bit_value b) 0 s)
  end.

(** The check that [bytearray] applies to each item. *)
Definition byte_item (n : nat) : result nat :=
  if decide (n < 256) then Ok n else Raise ValueError.

(** ** Padding and packing *)

Definition _pad_encoded_data (encoded_data : bits) : bits * nat :=
  let extra_padding := 8 - length encoded_data mod 8 in
  let padded_info := format_08b extra_padding in
  (padded_info ++ encoded_data ++ replicate extra_padding false, extra_padding).

Definition _get_byte_array (padded_data : bits) : result (list nat) :=
  mapM (λ i, int2 (slice padded_data i (i + 8)) ≫= byte_item)
       (range_step (length padded_data) 8).

Definition _remove_padding (padded_data : bits) : result bits :=
  padding ← int2 (slice padded_data 0 8);
  Ok (slice padded_data 8 (neg_stop padding (length padded_data))).

(** [''.join(f"{byte:08b}" for byte in byte_array)] *)
Definition bytes_to_bits (byte_array : list nat) : bits :=
  mjoin (format_08b <$> byte_array).

(** ** Lists as Python arrays *)

(** [l[i]] *)
Definition getitem {A} (l : list A) (i : nat) : result A :=
  match l !! i with
  | Some x => Ok x
  | None => Raise IndexError
  end.

(** [l[i] = x] *)
Definition setitem {A} (l : list A) (i : nat) (x : A) : result (list A) :=
  if decide (i < length l) then Ok (<[i:=x]> l) else Raise IndexError.

(** [l.pop()]: the last element and the list without it. *)
Definition list_pop {A} (l : list A) : result (A * list A) :=
  match last l with
  | Some x => Ok (x, take (length l - 1) l)
  | None => Raise IndexError
  end.

(** [for x in l: st = body(st, x)], stopping at the first exception. *)
Fixpoint for_each {A S} (body : S → A → result S) (st : S) (l : list A)
  : result S :=
  match l with
  | [] => Ok st
  | x :: l' => st' ← body st x; for_each body st' l'
  end.

(** ** The module [heapq]

    [heappush] and [heappop] with their helpers [_siftdown] and [_siftup],
    as in the pure Python version of the standard library. Items are
    compared with [<] only, which is [lt] here. Each [while] loop is a
    structural recursion on a bound on the number of its iterations: the
    position of [_siftdown] decreases and the position of [_siftup]
    increases at every turn. [(pos - 1) >> 1] is [(pos - 1) / 2]. *)

Section heapq.
Context {A : Type} (lt : A → A → bool).

Fixpoint _siftdown_loop (fuel : nat) (heap : list A) (startpos pos : nat)
    (newitem : A) : result (list A * nat) :=
  match fuel with
  | 0 => Ok (heap, pos)
  | S fuel' =>
      if decide (startpos < pos) then
        let parentpos := (pos - 1) / 2 in
        parent ← getitem heap parentpos;
        if lt newitem parent then
          heap' ← setitem heap pos parent;
          _siftdown_loop fuel' heap' startpos parentpos newitem
        else Ok (heap, pos)
      else Ok (heap, pos)
  end.

Definition _siftdown (heap : list A) (startpos pos : nat)
  : result (list A) :=
  newitem ← getitem heap pos;
  r ← _siftdown_loop pos heap startpos pos newitem;
  setitem r.1 r.2 newitem.

Fixpoint _siftup_loop (fuel : nat) (heap : list A) (endpos pos : nat)
  : result (list A * nat) :=
  match fuel with
  | 0 => Ok (heap, pos)
  | S fuel' =>
      let childpos := 2 * pos + 1 in
      if decide (childpos < endpos) then
        let rightpos := childpos + 1 in
        childpos' ←
          (if decide (rightpos < endpos) then
             c ← getitem heap childpos;
             r ← getitem heap rightpos;
             Ok (if negb (lt c r) then rightpos else childpos)
           else Ok childpos);
        child ← getitem heap childpos';
        heap' ← setitem heap pos child;
        _siftup_loop fuel' heap' endpos childpos'
      else Ok (heap, pos)
  end.

Definition _siftup (heap : list A) (pos : nat) : result (list A) :=
  let endpos := length heap in
  let startpos := pos in
  newitem ← getitem heap pos;
  r ← _siftup_loop endpos heap endpos pos;
  heap' ← setitem r.1 r.2 newitem;
  _siftdown heap' startpos r.2.

Definition heappush (heap : list A) (item : A) : result (list A) :=
  let heap := heap ++ [item] in
  _siftdown heap 0 (length heap - 1).

Definition heappop (heap : list A) : result (A * list A) :=
  r ← list_pop heap;
  let lastelt := r.1 in
  let heap := r.2 in
  match heap with
  | [] => Ok (lastelt, heap)
  | _ =>
      returnitem ← getitem heap 0;
      heap ← setitem heap 0 lastelt;
      heap ← _siftup heap 0;
      Ok (returnitem, heap)
  end.
End heapq.

(** ** The class [HuffmanCoding.Node]

    The attributes [symbol], [left] and [right] may hold [None]. *)

#[local] Unset Elimination Schemes.
Inductive Node (Symbol : Type) : Type := mkNode {
  symbol : option Symbol;
  freq : nat;
  left : option (Node Symbol);
  right : option (Node Symbol)
}.
#[local] Set Elimination Schemes.
Arguments mkNode {Symbol} symbol freq left right.
Arguments symbol {Symbol} n.
Arguments freq {Symbol} n.
Arguments left {Symbol} n.
Arguments right {Symbol} n.

(** [Node.__init__] *)
Definition Node_init {Symbol} (symbol : option Symbol) (freq : nat)
  : Node Symbol :=
  mkNode symbol freq None None.

(** [Node.__lt__] *)
Definition Node_lt {Symbol} (self other : Node Symbol) : bool :=
  bool_decide (freq self < freq other).

(** ** Insertion-ordered dictionaries

    The order in which [dict.items()] yields the frequencies decides the
    order of the pushes onto the heap, so the frequency dictionary keeps
    its keys in order of first insertion. *)

Section odict.
Context {K V : Type} `{EqDecision K}.

Fixpoint odict_get (d : list (K * V)) (k : K) : option V :=
  match d with
  | [] => None
  | (k', v) :: d' => if decide (k = k') then Some v else odict_get d' k
  end.

Fixpoint odict_set (d : list (K * V)) (k : K) (v : V) : list (K * V) :=
  match d with
  | [] => [(k, v)]
  | (k', v') :: d' =>
      if decide (k = k') then (k', v) :: d' else (k', v') :: odict_set d' k v
  end.
End odict.

(** [freq[k] += 1] on a [defaultdict(int)] *)
Definition defaultdict_incr {K} `{EqDecision K} (d : list (K * nat)) (k : K)
  : list (K * nat) :=
  odict_set d k (default 0 (odict_get d k) + 1).

(** ** The class [HuffmanCoding]

    A symbol is whatever hashable value the reader hands over: a character
    of the text, or the tuple made from one row of the pixel array. The
    two branches on [file_type] in [_build_frequency_dict] and
    [_get_encoded_data] differ only in the conversion [tuple(pixel)];
    the embedding takes the rows as already converted, so that [data] is
    a list of symbols in both cases. *)

Section HuffmanCoding.
Context {Symbol : Type} `{Countable Symbol}.

(** The attributes of an instance. *)
Record HuffmanCoding : Type := mkHuffmanCoding {
  file_type : string;
  image_shape : option (list nat);
  heap : list (Node Symbol);
  codes : gmap Symbol bits;
  reverse_mapping : gmap bits Symbol
}.

(** The dictionary that [compress] pickles. *)
Record Container : Type := mkContainer {
  container_bytes : list nat;
  container_reverse_mapping : gmap bits Symbol;
  container_padding : nat;
  container_type : string;
  container_shape : option (list nat)
}.

(** [__init__]; [image_shape] is set by the reader of an image only. *)
Definition HuffmanCoding_init (file_type : string)
    (image_shape : option (list nat)) : HuffmanCoding :=
  mkHuffmanCoding file_type image_shape [] ∅ ∅.

Definition set_heap (self : HuffmanCoding) (h : list (Node Symbol))
  : HuffmanCoding :=
  mkHuffmanCoding (file_type self) (image_shape self) h
                  (codes self) (reverse_mapping self).

Definition set_reverse_mapping (self : HuffmanCoding)
    (rm : gmap bits Symbol) : HuffmanCoding :=
  mkHuffmanCoding (file_type self) (image_shape self) (heap self)
                  (codes self) rm.

(** [self.codes[symbol] = code; self.reverse_mapping[code] = symbol] *)
Definition set_code (self : HuffmanCoding) (s : Symbol) (code : bits)
  : HuffmanCoding :=
  mkHuffmanCoding (file_type self) (image_shape self) (heap self)
                  (<[s := code]> (codes self))
                  (<[code := s]> (reverse_mapping self)).

Definition _build_frequency_dict (self : HuffmanCoding)
    (data : list Symbol) : list (Symbol * nat) :=
  foldl defaultdict_incr [] data.

Definition _build_heap (self : HuffmanCoding)
    (freq_dict : list (Symbol * nat)) : result HuffmanCoding :=
  for_each
    (λ self item,
       h ← heappush Node_lt (heap self) (Node_init (Some item.1) item.2);
       Ok (set_heap self h))
    self freq_dict.

Fixpoint _merge_nodes_loop (fuel : nat) (self : HuffmanCoding)
  : result HuffmanCoding :=
  match fuel with
  | 0 => Ok self
  | S fuel' =>
      if decide (1 < length (heap self)) then
        p1 ← heappop Node_lt (heap self);
        p2 ← heappop Node_lt p1.2;
        let node1 := p1.1 in
        let node2 := p2.1 in
        let merged :=
          mkNode None (freq node1 + freq node2) (Some node1) (Some node2) in
        h ← heappush Node_lt p2.2 merged;
        _merge_nodes_loop fuel' (set_heap self h)
      else Ok self
  end.

(** Every turn of the loop shortens the heap by one node. *)
Definition _merge_nodes (self : HuffmanCoding) : result HuffmanCoding :=
  _merge_nodes_loop (length (heap self)) self.

Fixpoint _build_codes_node (node : Node Symbol) (code : bits)
    (self : HuffmanCoding) : HuffmanCoding :=
  let self :=
    match symbol node with
    | Some s => set_code self s code
    | None => self
    end in
  let self :=
    match left node with
    | Some l => _build_codes_node l (code ++ [false]) self
    | None => self
    end in
  match right node with
  | Some r => _build_codes_node r (code ++ [true]) self
  | None => self
  end.

(** [if node:] is the test for [None]. *)
Definition _build_codes_helper (self : HuffmanCoding)
    (node : option (Node Symbol)) (code : bits) : HuffmanCoding :=
  match node with
  | Some n => _build_codes_node n code self
  | None => self
  end.

Definition _build_codes (self : HuffmanCoding) : result HuffmanCoding :=
  p ← heappop Node_lt (heap self);
  let root := p.1 in
  Ok (_build_codes_helper (set_heap self p.2) (Some root) []).

(** [self.codes[k]] *)
Definition codes_getitem (self : HuffmanCoding) (k : Symbol) : result bits :=
  match codes self !! k with
  | Some c => Ok c
  | None => Raise KeyError
  end.

Definition _get_encoded_data (self : HuffmanCoding) (data : list Symbol)
  : result bits :=
  cs ← mapM (codes_getitem self) data;
  Ok (mjoin cs).

(** One turn of the loop of [_decode_data] on the pair of
    [current_code] and [output]. *)
Definition _decode_step (self : HuffmanCoding)
    (st : bits * list Symbol) (bit : bool) : bits * list Symbol :=
  let current_code := st.1 ++ [bit] in
  match reverse_mapping self !! current_code with
  | Some s => ([], st.2 ++ [s])
  | None => (current_code, st.2)
  end.

Definition _decode_loop (self : HuffmanCoding) (bit_string : bits)
  : bits * list Symbol :=
  foldl (_decode_step self) ([], []) bit_string.

(** The function has no [raise] and performs no operation that can
    fail: it returns [output] whatever is left in [current_code]. *)
Definition _decode_data (self : HuffmanCoding) (bit_string : bits)
  : result (list Symbol) :=
  Ok (_decode_loop self bit_string).2.

(** The three calls of [compress] that turn the frequency dictionary
    into the two code tables [codes] and [reverse_mapping]. *)
Definition build_tables (self : HuffmanCoding)
    (freq_dict : list (Symbol * nat)) : result HuffmanCoding :=
  self ← _build_heap self freq_dict;
  self ← _merge_nodes self;
  _build_codes self.

(** [compress] after the file has been read into [data]: the value is
    the dictionary that is pickled into the output file, which is
    written only when no step before has raised. *)
Definition compress (self : HuffmanCoding) (data : list Symbol)
  : result Container :=
  let freq_dict := _build_frequency_dict self data in
  self ← _build_heap self freq_dict;
  self ← _merge_nodes self;
  self ← _build_codes self;
  encoded_data ← _get_encoded_data self data;
  let padded := _pad_encoded_data encoded_data in
  byte_array ← _get_byte_array padded.1;
  Ok (mkContainer byte_array (reverse_mapping self) padded.2
                  (file_type self) (image_shape self)).

(** The [try] block of [decompress] on the unpickled dictionary
    [data]; the value is [decoded]. *)
Definition decompress_try (self : HuffmanCoding) (data : Container)
  : result (list Symbol) :=
  let self := set_reverse_mapping self (container_reverse_mapping data) in
  let byte_array := container_bytes data in
  let bit_string := bytes_to_bits byte_array in
  bit_string ← _remove_padding bit_string;
  _decode_data self bit_string.

(** [decompress] up to the writer: an exception of the [try] block is
    caught and the call returns [None]. *)
Definition decompress (self : HuffmanCoding) (data : Container)
  : option (list Symbol) :=
  match decompress_try self data with
  | Ok decoded => Some decoded
  | Raise _ => None
  end.
End HuffmanCoding.

Arguments HuffmanCoding : clear implicits.
Arguments HuffmanCoding _ {_ _}.
Arguments Container : clear implicits.

(** ** Readers, writers and the calls around them

    The files, the [docx] documents and the images are outside the
    embedding. A reader is given by the outcome of its call, a document by
    the list of the texts of its paragraphs, and a writer by the value it
    is handed. *)

(** [sep.join(parts)] *)
Fixpoint str_join {A} (sep : list A) (parts : list (list A)) : list A :=
  match parts with
  | [] => []
  | p :: ps =>
      match ps with
      | [] => p
      | _ => p ++ sep ++ str_join sep ps
      end
  end.

(** [s.split(sep)] for a separator of one character. *)
Fixpoint str_split {A} `{EqDecision A} (sep : A) (s : list A)
  : list (list A) :=
  match s with
  | [] => [[]]
  | c :: s' =>
      if decide (c = sep) then [] :: str_split sep s'
      else
        match str_split sep s' with
        | p :: ps => (c :: p) :: ps
        | [] => [[c]]
        end
  end.

(** [s.replace(old, new)]: the occurrences of [old] are found from the
    left and do not overlap; [skip] counts the characters of the current
    occurrence still to be passed over. An empty [old] matches before
    every character and at the end. *)
Fixpoint str_replace_from {A} `{EqDecision A} (old new : list A)
    (skip : nat) (s : list A) : list A :=
  match s with
  | [] => []
  | c :: s' =>
      match skip with
      | S k => str_replace_from old new k s'
      | 0 =>
          if decide (old `prefix_of` s)
          then new ++ str_replace_from old new (length old - 1) s'
          else c :: str_replace_from old new 0 s'
      end
  end.

Definition str_replace {A} `{EqDecision A} (s old new : list A) : list A :=
  match old with
  | [] => (s ≫= λ c, new ++ [c]) ++ new
  | _ => str_replace_from old new 0 s
  end.

(** [_read_docx] on the paragraphs of the document: the character
    [nl] is the line feed. *)
Definition _read_docx {A} (nl : A) (paragraphs : list (list A)) : list A :=
  str_join [nl] paragraphs.

(** [_write_docx]: the texts of the paragraphs added to the new document,
    in order. *)
Definition _write_docx {A} `{EqDecision A} (nl : A) (data : list A)
  : list (list A) :=
  str_split nl data.

(** [output_path] of [compress]. *)
Definition compress_output_path (file_path : list ascii) : list ascii :=
  file_path ++ String.list_ascii_of_string ".bin".

(** [output_path] of [decompress]. *)
Definition decompress_output_path (file_path : list ascii)
    (file_type : string) : list ascii :=
  str_replace file_path (String.list_ascii_of_string ".bin")
    (String.list_ascii_of_string "_decompressed." ++
     String.list_ascii_of_string file_type).

(** The reader that [compress] calls for a file type. *)
Inductive Reader : Type := ReadText | ReadDocx | ReadPdf | ReadImage.

(** The writer that [decompress] calls for a file type. *)
Inductive Writer : Type := WriteText | WriteDocx | WriteImage.

Definition image_types : list string := ["jpg"; "jpeg"; "png"; "bmp"]%string.

(** The chain of tests in the first [try] block of [compress]. *)
Definition compress_reader (file_type : string) : result Reader :=
  if decide (file_type = "txt"%string) then Ok ReadText
  else if decide (file_type = "docx"%string) then Ok ReadDocx
  else if decide (file_type = "pdf"%string) then Ok ReadPdf
  else if decide (file_type ∈ image_types) then Ok ReadImage
  else Raise ValueError.

(** The chain of tests in the last [try] block of [decompress]. *)
Definition decompress_writer (file_type : string) : result Writer :=
  if decide (file_type ∈ ["txt"; "pdf"]%string) then Ok WriteText
  else if decide (file_type = "docx"%string) then Ok WriteDocx
  else if decide (file_type ∈ image_types) then Ok WriteImage
  else Raise ValueError.

Section calls.
Context {Symbol : Type} `{Countable Symbol}.

(** The outcomes of the calls of [_read_text], [_read_docx], [_read_pdf]
    and [_read_image] on the file at [file_path]. *)
Record Readers : Type := mkReaders {
  read_text_outcome : result (list Symbol);
  read_docx_outcome : result (list Symbol);
  read_pdf_outcome : result (list Symbol);
  read_image_outcome : result (list Symbol * list nat)
}.

Definition set_image_shape (self : HuffmanCoding Symbol)
    (shape : option (list nat)) : HuffmanCoding Symbol :=
  mkHuffmanCoding (file_type self) shape (heap self)
                  (codes self) (reverse_mapping self).

(** The first [try] block of [compress]: the data and the instance after
    the read. *)
Definition compress_read (self : HuffmanCoding Symbol) (files : Readers)
  : result (list Symbol * HuffmanCoding Symbol) :=
  reader ← compress_reader (file_type self);
  match reader with
  | ReadText => data ← read_text_outcome files; Ok (data, self)
  | ReadDocx => data ← read_docx_outcome files; Ok (data, self)
  | ReadPdf => data ← read_pdf_outcome files; Ok (data, self)
  | ReadImage =>
      p ← read_image_outcome files;
      Ok (p.1, set_image_shape self (Some p.2))
  end.

(** The whole of [compress]: an exception of the read is caught and the
    call returns [None]; what follows the read is outside the [try]. The
    value [Some data] stands for the path of the file that holds the
    pickled [data]. *)
Definition compress_call (self : HuffmanCoding Symbol) (files : Readers)
  : result (option (Container Symbol)) :=
  match compress_read self files with
  | Raise _ => Ok None
  | Ok (data, self') => data' ← compress self' data; Ok (Some data')
  end.

(** [decompress] up to the choice of the writer: [None] when the first
    [try] block or the choice of the writer raises. *)
Definition decompress_call (self : HuffmanCoding Symbol)
    (data : Container Symbol) : option (Writer * list Symbol) :=
  match decompress_try self data with
  | Raise _ => None
  | Ok decoded =>
      match decompress_writer (container_type data) with
      | Raise _ => None
      | Ok writer => Some (writer, decoded)
      end
  end.
End calls.

Arguments Readers : clear implicits.

(** ** Sample instances and inputs *)

(** An instance for a text file, before [compress] is called. *)
Definition text_coding : HuffmanCoding ascii :=
  HuffmanCoding_init "txt" None.

(** An instance for an image of shape (1, 2, 3). *)
Definition image_coding : HuffmanCoding (nat * nat * nat) :=
  HuffmanCoding_init "png" (Some [1; 2; 3]).

Definition text_aaaa : list ascii := String.list_ascii_of_string "aaaa".

Definition text_abracadabra : list ascii :=
  String.list_ascii_of_string "abracadabra".

Definition two_equal_pixels : list (nat * nat * nat) :=
  [(10, 10, 10); (10, 10, 10)].

(** A decoder whose table holds the codes "0" and "10". *)
Definition two_code_decoder : HuffmanCoding ascii :=
  set_reverse_mapping text_coding
    (<[ [false] := "a"%char ]> (<[ [true; false] := "b"%char ]> ∅)).

(** A payload whose header announces nine bits of padding. *)
Definition header_nine : bits := format_08b 9 ++ replicate 16 true.

(** A payload whose header announces no padding. *)
Definition header_zero : bits :=
  format_08b 0 ++ [true; false; true; true; false; false; true; false].

(** A pickled dictionary whose payload starts with the byte 0. *)
Definition zero_header_container : Container ascii :=
  mkContainer [0; 178] (<[ [false] := "a"%char ]> ∅) 0 "txt" None.

(** A table that holds the codes "0" and "10" in both directions. *)
Definition two_code_coding : HuffmanCoding ascii :=
  mkHuffmanCoding "txt" None []
    (<[ "a"%char := [false] ]> (<[ "b"%char := [true; false] ]> ∅))
    (<[ [false] := "a"%char ]> (<[ [true; false] := "b"%char ]> ∅)).

Definition text_abba : list ascii := String.list_ascii_of_string "abba".

(** A heap of three leaves, in heap order. *)
Definition sample_heap : list (Node ascii) :=
  [Node_init (Some "c"%char) 1; Node_init (Some "b"%char) 2;
   Node_init (Some "a"%char) 5].

Definition sample_heap_coding : HuffmanCoding ascii :=
  set_heap text_coding sample_heap.


(** The paragraphs of a document, the second one empty. *)
Definition sample_paragraphs : list (list ascii) :=
  [String.list_ascii_of_string "Title"; [];
   String.list_ascii_of_string "Body text."].

Definition sample_path : list ascii :=
  String.list_ascii_of_string "uploads/notes.txt".

(** The files of a directory in which only the text reader succeeds. *)
Definition sample_readers : Readers ascii :=
  mkReaders (Ok text_abracadabra) (Raise "PackageNotFoundError")
            (Raise "PdfReadError") (Raise "UnidentifiedImageError").

(** ** Vocabulary of the statements *)

(** The suffix that [compress] puts after the path of the file. *)
Definition dot_bin : list ascii := [".";"b";"i";"n"]%char.

(** The number of occurrences of [s] in [data]. *)
Definition occurrences {A} `{EqDecision A} (s : A) (data : list A) : nat :=
  length (filter (λ x, x = s) data).

(** The nodes that the code builds: a leaf made by [_build_heap] carries
    a symbol and no children, a node made by [_merge_nodes] carries two
    children and no symbol. *)
Inductive tree_node {Symbol} : Node Symbol → Prop :=
| tree_leaf (s : Symbol) (f : nat) :
    tree_node (mkNode (Some s) f None None)
| tree_merged (f : nat) (l r : Node Symbol) :
    tree_node l → tree_node r → tree_node (mkNode None f (Some l) (Some r)).

(** The pairs of symbol and code that the walk of [_build_codes_helper]
    assigns below [node], in the order of the assignments, when the walk
    reaches [node] with the path [code]. *)
Fixpoint node_codes {Symbol} (node : Node Symbol) (code : bits)
  : list (Symbol * bits) :=
  match symbol node with
  | Some s => [(s, code)]
  | None => []
  end ++
  match left node with
  | Some l => node_codes l (code ++ [false])
  | None => []
  end ++
  match right node with
  | Some r => node_codes r (code ++ [true])
  | None => []
  end.

(** The symbols of the leaves below [node]. *)
Definition node_symbols {Symbol} (node : Node Symbol) : list Symbol :=
  (node_codes node []).*1.

(** Neither code is a prefix of the other. *)
Definition incomparable (c c' : bits) : Prop :=
  ¬ c `prefix_of` c' ∧ ¬ c' `prefix_of` c.

(** No code of the list is a prefix of a code at another position. *)
Fixpoint prefix_free (cs : list bits) : Prop :=
  match cs with
  | [] => True
  | c :: cs' => Forall (incomparable c) cs' ∧ prefix_free cs'
  end.

(** The entry of [reverse_mapping] that goes with an entry of [codes]. *)
Definition swap_entry {Symbol} (e : Symbol * bits) : bits * Symbol :=
  (e.2, e.1).

(** The symbols of the leaves of all the trees on the heap. *)
Definition forest_symbols {Symbol} (heap : list (Node Symbol))
  : list Symbol :=
  heap ≫= node_symbols.

(** The leaf that [_build_heap] makes from an item of the dictionary. *)
Definition leaf_of_item {Symbol} (item : Symbol * nat) : Node Symbol :=
  Node_init (Some item.1) item.2.

(** The invariant of [heapq]: no item is smaller than its parent, the
    parent of position [i] being position [(i - 1) / 2]. Items are
    compared by [key]. *)
Definition heap_ordered {A} (key : A → nat) (h : list A) : Prop :=
  ∀ i x p, 1 ≤ i → h !! i = Some x → h !! ((i - 1) / 2) = Some p →
           key p ≤ key x.

(** The state of a heap while the item at [pos] travels up: every item
    but the one at [pos] respects its parent, and the children of [pos]
    respect the parent of [pos]. *)
Definition ordered_except {A} (key : A → nat) (h : list A) (pos : nat)
  : Prop :=
  (∀ i x p, 1 ≤ i → i ≠ pos → h !! i = Some x →
            h !! ((i - 1) / 2) = Some p → key p ≤ key x) ∧
  (∀ j x g, 1 ≤ pos → 1 ≤ j → (j - 1) / 2 = pos → h !! j = Some x →
            h !! ((pos - 1) / 2) = Some g → key g ≤ key x).

(** The state of a heap while the hole at [pos] travels down: every
    item respects its parent unless its parent is [pos], and the children
    of [pos] respect the parent of [pos]. *)
Definition ordered_below {A} (key : A → nat) (h : list A) (pos : nat)
  : Prop :=
  (∀ i x p, 1 ≤ i → (i - 1) / 2 ≠ pos → h !! i = Some x →
            h !! ((i - 1) / 2) = Some p → key p ≤ key x) ∧
  (∀ j x g, 1 ≤ pos → 1 ≤ j → (j - 1) / 2 = pos → h !! j = Some x →
            h !! ((pos - 1) / 2) = Some g → key g ≤ key x).

(** The leaves below [node], each with its frequency, in the order of
    the walk. *)
Fixpoint node_leaves {Symbol} (node : Node Symbol) : list (Symbol * nat) :=
  match symbol node with
  | Some s => [(s, freq node)]
  | None => []
  end ++
  match left node with
  | Some l => node_leaves l
  | None => []
  end ++
  match right node with
  | Some r => node_leaves r
  | None => []
  end.

(** The trees that [_merge_nodes] builds: a merged node carries the sum
    of the frequencies of its children, and its left child is not more
    frequent than its right child. *)
Inductive huffman_tree {Symbol} : Node Symbol → Prop :=
| huffman_leaf (s : Symbol) (f : nat) :
    huffman_tree (mkNode (Some s) f None None)
| huffman_merged (l r : Node Symbol) :
    huffman_tree l → huffman_tree r → freq l ≤ freq r →
    huffman_tree (mkNode None (freq l + freq r) (Some l) (Some r)).

(** * Properties of the bit layer *)

Lemma bind_Ok {A B} (a : A) (f : A → result B) : Ok a ≫= f = f a.
Proof. done. Qed.

Lemma slice_0 {A} (s : list A) (n : nat) : slice s 0 n = take n s.
Proof. unfold slice. by rewrite Nat.sub_0_r, drop_0. Qed.

Lemma slice_app_l {A} (s t : list A) (n : nat) :
  length s = n → slice (s ++ t) 0 n = s.
Proof. intros <-. rewrite slice_0. by rewrite take_app_length. Qed.

Lemma slice_shift {A} (s t : list A) (i n : nat) :
  length s = n → slice (s ++ t) (i + n) (i + n + 8) = slice t i (i + 8).
Proof.
  intros <-. unfold slice. rewrite (Nat.add_comm i), drop_app_add.
  f_equal. lia.
Qed.

Lemma int2_snoc (s : bits) (b : bool) (n : nat) :
  int2 s = Ok n → int2 (s ++ [b]) = Ok (2 * n + bit_value b).
Proof.
  unfold int2. destruct s as [|c s]; [done|].
  intros [= <-]. rewrite <- app_comm_cons. f_equal.
  change (c :: s ++ [b]) with ((c :: s) ++ [b]). by rewrite foldl_app.
Qed.

Lemma int2_pos_bin (p : positive) : int2 (pos_bin p) = Ok (Pos.to_nat p).
Proof.
  induction p as [p IH|p IH|]; simpl; [| |done].
  - rewrite (int2_snoc _ _ _ IH). f_equal. simpl. lia.
  - rewrite (int2_snoc _ _ _ IH). f_equal. simpl. lia.
Qed.

Lemma int2_bin (n : nat) : int2 (bin n) = Ok n.
Proof.
  unfold bin. destruct (N.of_nat n) as [|p] eqn:E.
  - assert (n = 0) as -> by lia. done.
  - rewrite int2_pos_bin. f_equal. lia.
Qed.

Lemma int2_cons_false (s : bits) : s ≠ [] → int2 (false :: s) = int2 s.
Proof. destruct s as [|c s]; [done|]. reflexivity. Qed.

Lemma int2_zeros_app (k : nat) (s : bits) :
  s ≠ [] → int2 (replicate k false ++ s) = int2 s.
Proof.
  intros Hs. induction k as [|k IH]; [done|].
  change (replicate (S k) false ++ s) with (false :: (replicate k false ++ s)).
  rewrite int2_cons_false; [done|].
  destruct k; [done|discriminate].
Qed.

Lemma bin_nonempty (n : nat) : bin n ≠ [].
Proof.
  intros E. pose proof (int2_bin n) as Hn. by rewrite E in Hn.
Qed.

(** Read back, the header is the number that was written. *)
Lemma int2_format_08b (n : nat) : int2 (format_08b n) = Ok n.
Proof.
  unfold format_08b. rewrite int2_zeros_app by apply bin_nonempty.
  apply int2_bin.
Qed.

Lemma length_format_08b_small (n : nat) :
  n ≤ 8 → length (format_08b n) = 8.
Proof.
  intros Hn. do 9 (destruct n as [|n]; [reflexivity|]). lia.
Qed.

Lemma range_step_add8 (n : nat) :
  range_step (8 + n) 8 = 0 :: ((λ i, i + 8) <$> range_step n 8).
Proof.
  unfold range_step.
  replace (8 + n + 8 - 1) with (1 * 8 + (n + 8 - 1)) by lia.
  rewrite Nat.div_add_l by done.
  rewrite <- cons_seq, <- fmap_S_seq, fmap_cons, <- !list_fmap_compose.
  f_equal. apply list_fmap_ext. intros _ k _. simpl. lia.
Qed.

Lemma mapM_result_fmap {A B C} (f : B → result C) (g : A → B) (l : list A) :
  mapM f (g <$> l) = mapM (f ∘ g) l.
Proof.
  induction l as [|x l IH]; [done|].
  rewrite fmap_cons. simpl mapM. by rewrite IH.
Qed.

Lemma mapM_result_ext {A B} (f g : A → result B) (l : list A) :
  (∀ x, f x = g x) → mapM f l = mapM g l.
Proof.
  intros Hfg. induction l as [|x l IH]; [done|]. simpl. by rewrite Hfg, IH.
Qed.

(** A group of eight bits is a byte, and formatting the byte gives the
    group back. *)
Lemma byte_of_chunk (c : bits) :
  length c = 8 → ∃ n, int2 c ≫= byte_item = Ok n ∧ format_08b n = c.
Proof.
  intros Hc.
  do 8 (destruct c as [|? c]; [discriminate|]).
  destruct c; [|discriminate]. clear Hc.
  repeat match goal with b : bool |- _ => destruct b end;
    eexists; split; vm_compute; reflexivity.
Qed.

Lemma get_byte_array_app (c s : bits) :
  length c = 8 →
  _get_byte_array (c ++ s) =
    b ← int2 c ≫= byte_item; bs ← _get_byte_array s; Ok (b :: bs).
Proof.
  intros Hc. unfold _get_byte_array.
  rewrite length_app, Hc, range_step_add8. simpl mapM.
  rewrite slice_app_l by done.
  rewrite mapM_result_fmap.
  rewrite (mapM_result_ext _
             (λ i, int2 (slice s i (i + 8)) ≫= byte_item)); [done|].
  intros i. simpl. by rewrite slice_shift.
Qed.

Lemma bytes_to_bits_cons (b : nat) (bs : list nat) :
  bytes_to_bits (b :: bs) = format_08b b ++ bytes_to_bits bs.
Proof. done. Qed.

(** Packing a bit string whose length is a multiple of 8 succeeds, and
    expanding the bytes gives the bit string back. *)
Lemma get_byte_array_bits (k : nat) (s : bits) :
  length s = 8 * k →
  ∃ bs, _get_byte_array s = Ok bs ∧ bytes_to_bits bs = s.
Proof.
  revert s. induction k as [|k IH]; intros s Hs.
  - destruct s; [|discriminate]. by exists [].
  - rewrite <- (take_drop 8 s).
    assert (length (take 8 s) = 8) as Hc by (rewrite length_take; lia).
    destruct (byte_of_chunk _ Hc) as (b & Hb & Hfb).
    destruct (IH (drop 8 s)) as (bs & Hbs & Hbits).
    { rewrite length_drop. lia. }
    exists (b :: bs). rewrite get_byte_array_app by done.
    rewrite Hb. simpl. rewrite Hbs. simpl. split; [done|].
    by rewrite bytes_to_bits_cons, Hfb, Hbits.
Qed.

Lemma pad_extra_bounds (n : nat) : 1 ≤ 8 - n mod 8 ≤ 8.
Proof. pose proof (Nat.mod_upper_bound n 8). lia. Qed.

Lemma length_pad_encoded_data (encoded_data : bits) :
  length (_pad_encoded_data encoded_data).1 =
    8 * (length encoded_data / 8 + 2).
Proof.
  unfold _pad_encoded_data. cbn [fst].
  pose proof (pad_extra_bounds (length encoded_data)) as Hb.
  rewrite !length_app, length_replicate, length_format_08b_small by lia.
  pose proof (Nat.div_mod_eq (length encoded_data) 8). lia.
Qed.

Lemma remove_padding_padded (encoded_data : bits) :
  _remove_padding (_pad_encoded_data encoded_data).1 = Ok encoded_data.
Proof.
  unfold _pad_encoded_data, _remove_padding. cbn [fst].
  pose proof (pad_extra_bounds (length encoded_data)) as Hb.
  set (extra := 8 - length encoded_data `mod` 8) in *.
  assert (length (format_08b extra) = 8) as Hh
    by (apply length_format_08b_small; lia).
  rewrite slice_app_l by done. rewrite int2_format_08b. simpl. f_equal.
  unfold neg_stop. rewrite decide_False by lia.
  unfold slice. rewrite (drop_app_length' (format_08b extra)) by done.
  rewrite !length_app, length_replicate, Hh.
  replace (8 + (length encoded_data + extra) - extra - 8)
    with (length encoded_data) by lia.
  by rewrite take_app_length.
Qed.

(** C7. For every encoded bit string the padding step computes
    [extra = 8 - (length mod 8)], which lies between 1 and 8 and is 8 when
    the length is already a multiple of 8; it prepends [extra] as a header
    of exactly 8 bits that reads back as [extra], appends [extra] zero
    bits, and the length of the result is a multiple of 8. *)
Theorem pad_encoded_data_spec (encoded_data : bits) :
  let extra := 8 - length encoded_data mod 8 in
  1 ≤ extra ≤ 8 ∧
  (length encoded_data mod 8 = 0 → extra = 8) ∧
  _pad_encoded_data encoded_data =
    (format_08b extra ++ encoded_data ++ replicate extra false, extra) ∧
  length (format_08b extra) = 8 ∧
  int2 (format_08b extra) = Ok extra ∧
  length (_pad_encoded_data encoded_data).1 mod 8 = 0.
Proof.
  intros extra.
  pose proof (pad_extra_bounds (length encoded_data)) as Hb.
  split_and!.
  - apply Hb.
  - apply Hb.
  - intros Hm. unfold extra. rewrite Hm. done.
  - done.
  - apply length_format_08b_small, Hb.
  - apply int2_format_08b.
  - rewrite length_pad_encoded_data, Nat.mul_comm. apply Nat.Div0.mod_mul.
Qed.

(** C9. For every bit string [e], padding it, grouping the bits into
    bytes, expanding the bytes into bits again and removing header and
    padding yields [e]: the packing layer is a lossless round trip,
    whatever the code table. *)
Theorem pack_unpack_roundtrip (e : bits) :
  (byte_array ← _get_byte_array (_pad_encoded_data e).1;
   _remove_padding (bytes_to_bits byte_array)) = Ok e.
Proof.
  destruct (get_byte_array_bits _ _ (length_pad_encoded_data e))
    as (bs & -> & Hbits).
  simpl. rewrite Hbits. apply remove_padding_padded.
Qed.

(** Counterexample to C4 as stated: the header announces 9 bits of
    padding, which is outside 0-8, and the call returns 7 bits instead of
    failing. *)
Lemma remove_padding_accepts_header_nine :
  int2 (slice header_nine 0 8) = Ok 9 ∧
  _remove_padding header_nine = Ok (replicate 7 true) ∧
  ∀ exc, _remove_padding header_nine ≠ Raise exc.
Proof. split_and!; [reflexivity | reflexivity | intros exc; discriminate]. Qed.

(** C4, amended. The decoder reads the first 8 bits as [padding_count]
    and validates nothing: on a non-empty bit string it always returns.
    When [padding_count] is between 1 and the number of remaining bits,
    the result is the input without its 8-bit header and without exactly
    [padding_count] trailing bits; when [padding_count] exceeds the number
    of remaining bits, the result is empty. *)
Theorem remove_padding_never_validates (padded_data : bits) :
  0 < length padded_data →
  ∃ padding_count out,
    int2 (slice padded_data 0 8) = Ok padding_count ∧
    _remove_padding padded_data = Ok out ∧
    (1 ≤ padding_count ≤ length padded_data - 8 →
       ∃ header trailer,
         padded_data = header ++ out ++ trailer ∧
         length header = 8 ∧ length trailer = padding_count) ∧
    (length padded_data - 8 < padding_count → out = []).
Proof.
  intros Hlen. unfold _remove_padding.
  destruct (int2 (slice padded_data 0 8)) as [p|e] eqn:Hp.
  2:{ rewrite slice_0 in Hp. destruct padded_data; [simpl in Hlen; lia|].
      discriminate. }
  exists p, (slice padded_data 8 (neg_stop p (length padded_data))).
  split_and!; [done | done | |].
  - intros Hr. unfold neg_stop. rewrite decide_False by lia.
    exists (take 8 padded_data), (drop (length padded_data - p) padded_data).
    split_and!.
    + unfold slice.
      replace (drop (length padded_data - p) padded_data)
        with (drop (length padded_data - p - 8) (drop 8 padded_data)).
      * by rewrite !take_drop.
      * rewrite drop_drop. f_equal. lia.
    + rewrite length_take. lia.
    + rewrite length_drop. lia.
  - intros Hr. unfold neg_stop, slice. case_decide; [done|].
    replace (length padded_data - p - 8) with 0 by lia. done.
Qed.

Lemma remove_padding_never_validates_witness :
  0 < length header_nine ∧
  ∃ padding_count out,
    int2 (slice header_nine 0 8) = Ok padding_count ∧
    _remove_padding header_nine = Ok out ∧
    (1 ≤ padding_count ≤ length header_nine - 8 →
       ∃ header trailer,
         header_nine = header ++ out ++ trailer ∧
         length header = 8 ∧ length trailer = padding_count) ∧
    (length header_nine - 8 < padding_count → out = []).
Proof.
  split; [vm_compute; lia|].
  apply (remove_padding_never_validates header_nine). vm_compute; lia.
Defined.

(** * Properties of the frequency dictionary *)

Section odict_facts.
Context {K V : Type} `{EqDecision K}.
Implicit Types (d : list (K * V)) (k : K) (v : V).

Lemma odict_get_set d k v k' :
  odict_get (odict_set d k v) k' =
    if decide (k' = k) then Some v else odict_get d k'.
Proof.
  induction d as [|[k0 v0] d IH]; simpl.
  - repeat case_decide; congruence.
  - repeat (case_decide; simpl); try congruence.
Qed.

Lemma odict_keys_set d k v :
  (odict_set d k v).*1 = if decide (k ∈ d.*1) then d.*1 else d.*1 ++ [k].
Proof.
  induction d as [|[k0 v0] d IH]; [reflexivity|].
  cbn [odict_set]. rewrite fmap_cons. cbn [fst].
  destruct (decide (k = k0)) as [->|Hne].
  - rewrite decide_True; [done|]. apply list_elem_of_here.
  - rewrite fmap_cons, IH. cbn [fst].
    destruct (decide (k ∈ d.*1)) as [Hin|Hnin].
    + rewrite decide_True; [done|]. by apply list_elem_of_further.
    + rewrite decide_False; [done|].
      rewrite elem_of_cons. intros [?|?]; done.
Qed.

Lemma odict_get_None d k : odict_get d k = None ↔ k ∉ d.*1.
Proof.
  induction d as [|[k0 v0] d IH]; simpl.
  - split; [intros _; apply not_elem_of_nil | done].
  - rewrite not_elem_of_cons. case_decide as Hk.
    + split; [done | intros [? _]; done].
    + rewrite IH. split; [done | intros [_ ?]; done].
Qed.

Lemma odict_get_elem_of d k v :
  NoDup d.*1 → (k, v) ∈ d ↔ odict_get d k = Some v.
Proof.
  induction d as [|[k0 v0] d IH]; simpl; intros Hnd.
  - split; [intros Hin; by apply elem_of_nil in Hin | done].
  - apply NoDup_cons in Hnd as [Hk0 Hnd]. rewrite elem_of_cons.
    destruct (decide (k = k0)) as [->|Hne].
    + split; [|intros [= ->]; by left].
      intros [[= ->]|Hin]; [done|].
      exfalso. apply Hk0. apply list_elem_of_fmap. by exists (k0, v).
    + rewrite <- IH by done.
      split; [intros [[= -> ->]|?]; done | by right].
Qed.
End odict_facts.

Section frequency.
Context {Symbol : Type} `{Countable Symbol}.
Implicit Types (self : HuffmanCoding Symbol) (data : list Symbol).
Implicit Types (d : list (Symbol * nat)) (s : Symbol).

Lemma occurrences_snoc s data x :
  occurrences s (data ++ [x]) =
    occurrences s data + (if decide (x = s) then 1 else 0).
Proof.
  unfold occurrences. rewrite filter_app, length_app. f_equal.
  rewrite filter_cons, filter_nil. by case_decide.
Qed.

Lemma occurrences_pos s data : s ∈ data → 0 < occurrences s data.
Proof.
  intros Hin. unfold occurrences.
  assert (s ∈ filter (λ x, x = s) data) as Hf
    by (by apply list_elem_of_filter).
  destruct (filter (λ x, x = s) data); [by apply elem_of_nil in Hf|].
  simpl. lia.
Qed.

Lemma occurrences_notin s data : s ∉ data → occurrences s data = 0.
Proof.
  intros Hnin. unfold occurrences.
  destruct (filter (λ x, x = s) data) as [|y l] eqn:E; [done|].
  assert (y ∈ filter (λ x, x = s) data) as Hy
    by (rewrite E; apply list_elem_of_here).
  apply list_elem_of_filter in Hy as [-> Hy]. done.
Qed.

Lemma sum_odict_set d s (n : nat) :
  sum_list (odict_set d s n).*2 + default 0 (odict_get d s) =
    sum_list d.*2 + n.
Proof.
  induction d as [|[k0 v0] d IH]; [simpl; lia|].
  cbn [odict_set odict_get]. case_decide.
  - rewrite !fmap_cons. simpl. lia.
  - rewrite !fmap_cons. cbn [sum_list snd]. lia.
Qed.

Lemma sum_defaultdict_incr d s :
  sum_list (defaultdict_incr d s).*2 = S (sum_list d.*2).
Proof.
  unfold defaultdict_incr.
  pose proof (sum_odict_set d s (default 0 (odict_get d s) + 1)). lia.
Qed.

(** What the loop of [_build_frequency_dict] has established after
    reading [data]. *)
Lemma build_frequency_dict_inv self data :
  let d := _build_frequency_dict self data in
  NoDup d.*1 ∧
  (∀ s, s ∈ d.*1 ↔ s ∈ data) ∧
  (∀ s, s ∈ data → odict_get d s = Some (occurrences s data)) ∧
  sum_list d.*2 = length data.
Proof.
  unfold _build_frequency_dict.
  induction data as [|x data IH] using rev_ind; simpl.
  - split_and!; [constructor | done | | done].
    intros s Hs. by apply elem_of_nil in Hs.
  - rewrite foldl_app. simpl.
    destruct IH as (Hnd & Hkeys & Hget & Hsum).
    set (d := foldl defaultdict_incr [] data) in *.
    assert ((defaultdict_incr d x).*1 =
              if decide (x ∈ d.*1) then d.*1 else d.*1 ++ [x]) as Hk
      by apply odict_keys_set.
    split_and!.
    + rewrite Hk. case_decide; [done|].
      apply NoDup_app. split_and!; [done | | apply NoDup_singleton].
      intros y Hy Hy'. apply list_elem_of_singleton in Hy' as ->. done.
    + intros s. rewrite Hk, elem_of_app, list_elem_of_singleton, <- Hkeys.
      case_decide; [|by rewrite elem_of_app, list_elem_of_singleton].
      split; [by left | intros [?| ->]; done].
    + intros s Hs. unfold defaultdict_incr. rewrite odict_get_set.
      rewrite occurrences_snoc.
      destruct (decide (s = x)) as [->|Hne].
      * rewrite decide_True by done. f_equal.
        destruct (decide (x ∈ data)) as [Hin|Hnin].
        -- by rewrite (Hget _ Hin).
        -- rewrite (occurrences_notin _ _ Hnin).
           assert (odict_get d x = None) as ->; [|done].
           apply odict_get_None. by rewrite Hkeys.
      * rewrite decide_False by done. rewrite Nat.add_0_r.
        apply Hget. apply elem_of_app in Hs as [Hs|Hs]; [done|].
        by apply list_elem_of_singleton in Hs.
    + rewrite sum_defaultdict_incr, Hsum, length_app. simpl. lia.
Qed.

(** C8. For every sequence of length N >= 1 the frequency analysis
    returns a table whose keys are exactly the distinct symbols of the
    sequence, each once, every entry pairing a symbol with its positive
    number of occurrences, and the counts sum to N. *)
Theorem build_frequency_dict_counts self data :
  1 ≤ length data →
  let freq_dict := _build_frequency_dict self data in
  NoDup freq_dict.*1 ∧
  (∀ s, s ∈ freq_dict.*1 ↔ s ∈ data) ∧
  (∀ s n, (s, n) ∈ freq_dict ↔ s ∈ data ∧ n = occurrences s data) ∧
  (∀ s n, (s, n) ∈ freq_dict → 0 < n) ∧
  sum_list freq_dict.*2 = length data.
Proof.
  intros _ freq_dict.
  destruct (build_frequency_dict_inv self data) as (Hnd & Hkeys & Hget & Hsum).
  fold freq_dict in Hnd, Hkeys, Hget, Hsum.
  assert (∀ s n, (s, n) ∈ freq_dict ↔ s ∈ data ∧ n = occurrences s data)
    as Hentries.
  { intros s n. rewrite odict_get_elem_of by done. split.
    - intros Hg. assert (s ∈ data) as Hs.
      { apply Hkeys. destruct (decide (s ∈ freq_dict.*1)) as [|Hn]; [done|].
        apply odict_get_None in Hn. congruence. }
      split; [done|]. rewrite (Hget _ Hs) in Hg. congruence.
    - intros [Hs ->]. by apply Hget. }
  split_and!; [done | done | done | | done].
  intros s n [Hs ->]%Hentries. by apply occurrences_pos.
Qed.
End frequency.

Lemma build_frequency_dict_counts_witness :
  1 ≤ length text_abracadabra ∧
  let freq_dict := _build_frequency_dict text_coding text_abracadabra in
  NoDup freq_dict.*1 ∧
  (∀ s, s ∈ freq_dict.*1 ↔ s ∈ text_abracadabra) ∧
  (∀ s n, (s, n) ∈ freq_dict ↔
          s ∈ text_abracadabra ∧ n = occurrences s text_abracadabra) ∧
  (∀ s n, (s, n) ∈ freq_dict → 0 < n) ∧
  sum_list freq_dict.*2 = length text_abracadabra.
Proof.
  split; [vm_compute; lia|].
  apply (build_frequency_dict_counts text_coding text_abracadabra).
  vm_compute; lia.
Defined.

(** * Properties of the decoder *)

Section decoder.
Context {Symbol : Type} `{Countable Symbol}.
Implicit Types (self : HuffmanCoding Symbol) (bs t acc : bits).
Implicit Types (out : list Symbol).

Lemma decode_loop_app self bs t :
  _decode_loop self (bs ++ t) =
    foldl (_decode_step self) (_decode_loop self bs) t.
Proof. unfold _decode_loop. apply foldl_app. Qed.

(** Bits that never complete a code only grow [current_code]. *)
Lemma decode_steps_no_hit self t acc out :
  (∀ k, 1 ≤ k ≤ length t →
        reverse_mapping self !! (acc ++ take k t) = None) →
  foldl (_decode_step self) (acc, out) t = (acc ++ t, out).
Proof.
  revert acc. induction t as [|b t IH]; intros acc Hmiss; simpl.
  - by rewrite app_nil_r.
  - assert (_decode_step self (acc, out) b = (acc ++ [b], out)) as ->.
    { unfold _decode_step. pose proof (Hmiss 1) as H1.
      change (take 1 (b :: t)) with [b] in H1.
      cbn [fst snd]. rewrite H1 by (simpl; lia). done. }
    rewrite IH.
    + by rewrite <- app_assoc.
    + intros k Hk. rewrite <- app_assoc. apply (Hmiss (S k)). simpl. lia.
Qed.

(** C3, amended. The decoder never fails: when the bits that follow a
    complete concatenation of codes do not themselves complete a code,
    they are still in the accumulator after the last bit, and the call
    returns the symbols decoded before them, silently dropping the
    leftover. *)
Theorem decode_data_drops_leftover self bs t :
  (_decode_loop self bs).1 = [] →
  1 ≤ length t →
  (∀ k, 1 ≤ k ≤ length t → reverse_mapping self !! take k t = None) →
  (_decode_loop self (bs ++ t)).1 = t ∧
  (_decode_loop self (bs ++ t)).1 ≠ [] ∧
  _decode_data self (bs ++ t) = Ok (_decode_loop self bs).2 ∧
  _decode_data self (bs ++ t) = _decode_data self bs.
Proof.
  intros Hacc Ht Hmiss. unfold _decode_data.
  rewrite decode_loop_app.
  destruct (_decode_loop self bs) as [acc out]. simpl in Hacc. subst acc.
  rewrite decode_steps_no_hit by done. simpl.
  split_and!; [done | | done | done].
  destruct t; [simpl in Ht; lia | done].
Qed.

(** C10. When the first 8 bits encode the value 0, the padding removal
    returns the empty bit string whatever the rest of the payload is,
    and a container with such a payload decodes to the empty symbol
    sequence without raising. *)
Theorem remove_padding_zero_header self (padded_data : bits) :
  int2 (slice padded_data 0 8) = Ok 0 →
  _remove_padding padded_data = Ok [] ∧
  ∀ data : Container Symbol,
    bytes_to_bits (container_bytes data) = padded_data →
    decompress_try self data = Ok [] ∧ decompress self data = Some [].
Proof.
  intros Hz.
  assert (_remove_padding padded_data = Ok []) as Hr.
  { unfold _remove_padding. rewrite Hz. simpl. unfold slice.
    by rewrite Nat.sub_0_l, take_0. }
  split; [done|]. intros data Hd.
  unfold decompress, decompress_try. rewrite Hd, Hr. done.
Qed.

(** C5, amended. Compressing the empty sequence on a fresh instance
    fails and yields no container: the frequency analysis returns the
    empty table without complaint, and the exception is the
    [IndexError] of the pop from the empty heap in [_build_codes]. *)
Theorem compress_empty_raises_IndexError (file_type : string)
    (image_shape : option (list nat)) :
  let self : HuffmanCoding Symbol := HuffmanCoding_init file_type image_shape in
  _build_frequency_dict self [] = [] ∧
  (_build_heap self [] ≫= _merge_nodes) = Ok self ∧
  _build_codes self = Raise IndexError ∧
  compress self [] = Raise IndexError.
Proof. done. Qed.
End decoder.

(** Counterexample to C3 as stated: after the last bit the accumulator
    holds "1", no code of the table, and the call returns the one symbol
    decoded before it. *)
Lemma decode_data_leftover_no_error :
  (_decode_loop two_code_decoder [false; true]).1 = [true] ∧
  _decode_data two_code_decoder [false; true] = Ok ["a"%char] ∧
  ∀ exc, _decode_data two_code_decoder [false; true] ≠ Raise exc.
Proof. split_and!; [vm_compute; reflexivity | vm_compute; reflexivity | done]. Qed.

Lemma decode_data_drops_leftover_witness :
  (_decode_loop two_code_decoder [false]).1 = [] ∧
  1 ≤ length [true] ∧
  (∀ k, 1 ≤ k ≤ length [true] →
        reverse_mapping two_code_decoder !! take k [true] = None) ∧
  (_decode_loop two_code_decoder ([false] ++ [true])).1 = [true] ∧
  (_decode_loop two_code_decoder ([false] ++ [true])).1 ≠ [] ∧
  _decode_data two_code_decoder ([false] ++ [true]) =
    Ok (_decode_loop two_code_decoder [false]).2 ∧
  _decode_data two_code_decoder ([false] ++ [true]) =
    _decode_data two_code_decoder [false].
Proof.
  assert (∀ k, 1 ≤ k ≤ length [true] →
               reverse_mapping two_code_decoder !! take k [true] = None) as Hm.
  { intros k Hk. simpl in Hk. assert (k = 1) as -> by lia.
    vm_compute. reflexivity. }
  split_and!; [vm_compute; reflexivity | simpl; lia | exact Hm | ..];
    apply (decode_data_drops_leftover two_code_decoder [false] [true]);
    first [vm_compute; reflexivity | simpl; lia | exact Hm].
Defined.

Lemma remove_padding_zero_header_witness :
  int2 (slice header_zero 0 8) = Ok 0 ∧
  _remove_padding header_zero = Ok [] ∧
  ∀ data : Container ascii,
    bytes_to_bits (container_bytes data) = header_zero →
    decompress_try text_coding data = Ok [] ∧
    decompress text_coding data = Some [].
Proof.
  split; [vm_compute; reflexivity|].
  apply (remove_padding_zero_header text_coding header_zero).
  vm_compute; reflexivity.
Defined.

(** Counterexample to C5 as stated: the exception raised on the empty
    input is not an [EmptyInputError]. *)
Lemma compress_empty_not_EmptyInputError :
  compress text_coding [] = Raise "IndexError" ∧
  compress text_coding [] ≠ Raise "EmptyInputError".
Proof. split; [reflexivity | discriminate]. Qed.

(** * The alphabet of one symbol *)

Section single_symbol.
Context {Symbol : Type} `{Countable Symbol}.
Implicit Types (self : HuffmanCoding Symbol) (s : Symbol).

Lemma compress_build_tables self (data : list Symbol) :
  compress self data =
    self' ← build_tables self (_build_frequency_dict self data);
    encoded_data ← _get_encoded_data self' data;
    byte_array ← _get_byte_array (_pad_encoded_data encoded_data).1;
    Ok (mkContainer byte_array (reverse_mapping self')
                    (_pad_encoded_data encoded_data).2
                    (file_type self') (image_shape self')).
Proof.
  unfold compress, build_tables.
  destruct (_build_heap self _) as [self1|e]; [simpl|done].
  destruct (_merge_nodes self1) as [self2|e]; [simpl|done].
  done.
Qed.

Lemma incr_replicate s (k n : nat) :
  foldl defaultdict_incr [(s, k)] (replicate n s) = [(s, k + n)].
Proof.
  revert k. induction n as [|n IH]; intros k; simpl.
  - by rewrite Nat.add_0_r.
  - unfold defaultdict_incr at 2. simpl. rewrite !decide_True by done.
    simpl. rewrite IH. do 2 f_equal. lia.
Qed.

Lemma build_frequency_dict_replicate self s (n : nat) :
  _build_frequency_dict self (replicate (S n) s) = [(s, S n)].
Proof.
  unfold _build_frequency_dict. simpl.
  change (defaultdict_incr [] s) with [(s, 1)]. by rewrite incr_replicate.
Qed.

Lemma mapM_getitem_replicate self s (c : bits) (n : nat) :
  codes self !! s = Some c →
  mapM (codes_getitem self) (replicate n s) = Ok (replicate n c).
Proof.
  intros Hc. induction n as [|n IH]; [done|].
  assert (codes_getitem self s = Ok c) as Hs
    by (unfold codes_getitem; by rewrite Hc).
  cbn [replicate mapM]. rewrite Hs. simpl. by rewrite IH.
Qed.

Lemma mjoin_replicate_nil {A} (n : nat) : mjoin (replicate n (@nil A)) = [].
Proof. induction n; [done|]. simpl. done. Qed.

(** C2, on the code as it is. When the input is N >= 1 copies of one
    symbol, the derivation assigns that symbol the empty code; the
    payload holds the header and the padding only, and decompression
    returns the empty sequence, not the N copies. *)
Theorem single_symbol_gets_empty_code (file_type : string)
    (image_shape : option (list nat)) s (n : nat) :
  let self : HuffmanCoding Symbol := HuffmanCoding_init file_type image_shape in
  let data := replicate (S n) s in
  ∃ self' data',
    build_tables self (_build_frequency_dict self data) = Ok self' ∧
    codes self' = {[ s := [] ]} ∧
    reverse_mapping self' = {[ [] := s ]} ∧
    compress self data = Ok data' ∧
    container_bytes data' = [8; 0] ∧
    decompress self data' = Some [] ∧
    decompress self data' ≠ Some data.
Proof.
  intros self data.
  set (self' := mkHuffmanCoding file_type image_shape []
                  (<[ s := [] ]> ∅) (<[ [] := s ]> ∅) : HuffmanCoding Symbol).
  assert (build_tables self (_build_frequency_dict self data) = Ok self')
    as Hbt.
  { unfold data. rewrite build_frequency_dict_replicate. reflexivity. }
  assert (_get_encoded_data self' data = Ok []) as Henc.
  { unfold _get_encoded_data, data.
    rewrite (mapM_getitem_replicate self' s []).
    - simpl. by rewrite mjoin_replicate_nil.
    - apply lookup_insert_eq. }
  exists self', (mkContainer [8; 0] (<[ [] := s ]> ∅) 8 file_type image_shape).
  split_and!; try done.
  rewrite compress_build_tables, Hbt. simpl.
  rewrite Henc. reflexivity.
Qed.
End single_symbol.

(** C1, on the code as it is. The text "aaaa" and the image made of two
    equal pixels are non-empty inputs; each is compressed without error,
    and decompressing the container returns the empty sequence. *)
Theorem roundtrip_loses_single_symbol_input :
  (compress text_coding text_aaaa ≫= decompress_try text_coding) = Ok [] ∧
  (compress image_coding two_equal_pixels ≫= decompress_try image_coding)
    = Ok [].
Proof. split; vm_compute; reflexivity. Qed.

(** C6, on the code as it is. For the frequency table with the single
    entry ('a', 4) the derived code table gives 'a' the code of length 0. *)
Theorem single_entry_table_code_length :
  (self ← build_tables text_coding [("a"%char, 4)];
   Ok (length <$> codes self !! "a"%char)) = Ok (Some 0).
Proof. vm_compute. reflexivity. Qed.

(** * Properties of [heapq]

    The order of the heap decides which of the possible code trees is
    built, but not whether the tables are correct; what the codec needs
    from [heappush] and [heappop] is that no item is lost, duplicated or
    invented, and that they fail on the empty heap only. *)

Section heapq_facts.
Context {A : Type} (lt : A → A → bool).
Implicit Types (heap : list A) (item newitem : A).

Lemma getitem_lt heap (i : nat) :
  i < length heap → ∃ x, heap !! i = Some x ∧ getitem heap i = Ok x.
Proof.
  intros Hi. destruct (lookup_lt_is_Some_2 heap i Hi) as [x Hx].
  exists x. unfold getitem. by rewrite Hx.
Qed.

Lemma setitem_lt heap (i : nat) item :
  i < length heap → setitem heap i item = Ok (<[i := item]> heap).
Proof. intros Hi. unfold setitem. by rewrite decide_True. Qed.

(** Moving the item at [j] into the hole at [pos] moves the hole to [j]. *)
Lemma hole_move heap (pos j : nat) item newitem :
  pos < length heap → heap !! j = Some item → j ≠ pos →
  <[j := newitem]> (<[pos := item]> heap) ≡ₚ <[pos := newitem]> heap.
Proof.
  intros Hpos Hj Hne.
  rewrite <- (list_insert_insert_eq heap pos item newitem).
  apply Permutation_insert_swap.
  - by apply list_lookup_insert_eq.
  - by rewrite list_lookup_insert_ne.
Qed.

Lemma siftdown_loop_perm (fuel : nat) heap (startpos pos : nat) newitem :
  pos < length heap →
  ∃ heap' pos',
    _siftdown_loop lt fuel heap startpos pos newitem = Ok (heap', pos') ∧
    pos' < length heap' ∧
    <[pos' := newitem]> heap' ≡ₚ <[pos := newitem]> heap.
Proof.
  revert heap pos. induction fuel as [|fuel IH]; intros heap pos Hpos.
  { by exists heap, pos. }
  cbn [_siftdown_loop]. case_decide as Hstart; [|by exists heap, pos].
  assert ((pos - 1) / 2 < pos) as Hparent.
  { pose proof (Nat.Div0.div_le_upper_bound (pos - 1) 2 (pos - 1)). lia. }
  cbv zeta. set (parentpos := (pos - 1) / 2) in *.
  destruct (getitem_lt heap parentpos) as (parent & Hp & ->); [lia|].
  rewrite bind_Ok. destruct (lt newitem parent); [|by exists heap, pos].
  rewrite setitem_lt, bind_Ok by done.
  destruct (IH (<[pos := parent]> heap) parentpos)
    as (heap' & pos' & -> & Hlen & Hperm).
  { rewrite length_insert. lia. }
  exists heap', pos'. split_and!; [done | done |].
  rewrite Hperm. apply hole_move; [done | done | lia].
Qed.

Lemma siftdown_perm heap (startpos pos : nat) :
  pos < length heap → ∃ heap', _siftdown lt heap startpos pos = Ok heap' ∧ heap' ≡ₚ heap.
Proof.
  intros Hpos. unfold _siftdown.
  destruct (getitem_lt heap pos Hpos) as (newitem & Hn & ->). simpl.
  destruct (siftdown_loop_perm pos heap startpos pos newitem Hpos)
    as (heap' & pos' & -> & Hlen & Hperm).
  simpl. rewrite setitem_lt by done. eexists. split; [done|].
  rewrite Hperm. by rewrite list_insert_id.
Qed.

Lemma siftup_loop_perm (fuel : nat) heap (pos : nat) :
  pos < length heap →
  ∃ heap' pos',
    _siftup_loop lt fuel heap (length heap) pos = Ok (heap', pos') ∧
    pos' < length heap' ∧
    ∀ newitem, <[pos' := newitem]> heap' ≡ₚ <[pos := newitem]> heap.
Proof.
  revert heap pos. induction fuel as [|fuel IH]; intros heap pos Hpos.
  { by exists heap, pos. }
  cbn [_siftup_loop]. case_decide as Hchild; [|by exists heap, pos].
  set (childpos := 2 * pos + 1) in *.
  assert (∃ childpos',
    (if decide (childpos + 1 < length heap)
     then c ← getitem heap childpos;
          r ← getitem heap (childpos + 1);
          Ok (if negb (lt c r) then childpos + 1 else childpos)
     else Ok childpos) = Ok childpos' ∧
    childpos' < length heap ∧ childpos' ≠ pos) as (childpos' & -> & Hc & Hne).
  { case_decide as Hright.
    - destruct (getitem_lt heap childpos) as (c & _ & ->); [lia|].
      destruct (getitem_lt heap (childpos + 1)) as (r & _ & ->); [lia|].
      simpl. destruct (negb (lt c r)); eexists; (split; [done|]);
        unfold childpos; lia.
    - exists childpos. split; [done|]. unfold childpos. lia. }
  simpl.
  destruct (getitem_lt heap childpos' Hc) as (child & Hchild' & ->). simpl.
  rewrite setitem_lt by done. simpl.
  destruct (IH (<[pos := child]> heap) childpos')
    as (heap' & pos' & Hloop & Hlen & Hperm).
  { by rewrite length_insert. }
  rewrite length_insert in Hloop. rewrite Hloop.
  exists heap', pos'. split_and!; [done | done |].
  intros newitem. rewrite Hperm. by apply hole_move.
Qed.

Lemma siftup_perm heap (pos : nat) :
  pos < length heap → ∃ heap', _siftup lt heap pos = Ok heap' ∧ heap' ≡ₚ heap.
Proof.
  intros Hpos. unfold _siftup.
  destruct (getitem_lt heap pos Hpos) as (newitem & Hn & ->). simpl.
  destruct (siftup_loop_perm (length heap) heap pos Hpos)
    as (heap1 & pos1 & -> & Hlen & Hperm).
  simpl. rewrite setitem_lt by done. simpl.
  destruct (siftdown_perm (<[pos1 := newitem]> heap1) pos pos1)
    as (heap2 & -> & Hperm2).
  { by rewrite length_insert. }
  exists heap2. split; [done|].
  rewrite Hperm2, Hperm. by rewrite list_insert_id.
Qed.

(** [heappush] never fails and adds exactly [item]. *)
Lemma heappush_perm heap item :
  ∃ heap', heappush lt heap item = Ok heap' ∧ heap' ≡ₚ item :: heap.
Proof.
  unfold heappush.
  destruct (siftdown_perm (heap ++ [item]) 0 (length (heap ++ [item]) - 1))
    as (heap' & -> & Hperm).
  { rewrite length_app. simpl. lia. }
  exists heap'. split; [done|].
  rewrite Hperm. symmetry. apply Permutation_cons_append.
Qed.

(** [heappop] fails on the empty heap only, and otherwise removes exactly
    the item that it returns. *)
Lemma heappop_perm heap :
  heap ≠ [] →
  ∃ item heap', heappop lt heap = Ok (item, heap') ∧ item :: heap' ≡ₚ heap.
Proof.
  intros Hne. unfold heappop, list_pop.
  destruct heap as [|x0 heap0] using rev_ind; [done|]. clear IHheap0 Hne.
  rename x0 into lastelt.
  rewrite last_snoc, length_app. simpl.
  replace (length heap0 + 1 - 1) with (length heap0) by lia.
  rewrite take_app_length.
  destruct heap0 as [|returnitem rest].
  { exists lastelt, []. done. }
  simpl getitem. change (getitem (returnitem :: rest) 0) with (Ok returnitem).
  simpl.
  destruct (siftup_perm (lastelt :: rest) 0) as (heap' & Hs & Hperm).
  { simpl. lia. }
  change (setitem (returnitem :: rest) 0 lastelt) with
    (Ok (A:=list A) (lastelt :: rest)).
  simpl. rewrite Hs. simpl.
  exists returnitem, heap'. split; [done|].
  rewrite Hperm. rewrite <- Permutation_cons_append. done.
Qed.

Lemma heappop_nil : heappop lt [] = Raise IndexError.
Proof. done. Qed.
End heapq_facts.

(** * Properties of the code tree and of the tables *)

Section prefix_free_facts.
Implicit Types (c p : bits) (cs : list bits).

Lemma prefix_free_app cs1 cs2 :
  prefix_free (cs1 ++ cs2) ↔
  prefix_free cs1 ∧ prefix_free cs2 ∧
  Forall (λ c, Forall (incomparable c) cs2) cs1.
Proof.
  induction cs1 as [|c cs1 IH]; simpl.
  - split; [intros Hp; split_and!; [done | done | constructor] | tauto].
  - rewrite Forall_app, IH, Forall_cons. unfold incomparable. tauto.
Qed.

Lemma prefix_free_NoDup cs : prefix_free cs → NoDup cs.
Proof.
  induction cs as [|c cs IH]; simpl; [constructor|].
  intros [Hc Hcs]. apply NoDup_cons. split; [|by apply IH].
  intros Hin. rewrite Forall_forall in Hc.
  destruct (Hc c Hin) as [Hn _]. by apply Hn.
Qed.

Lemma prefix_free_elem_of cs c1 c2 :
  prefix_free cs → c1 ∈ cs → c2 ∈ cs → c1 ≠ c2 → ¬ c1 `prefix_of` c2.
Proof.
  induction cs as [|c cs IH]; intros Hp H1 H2 Hne.
  { by apply elem_of_nil in H1. }
  destruct Hp as [Hc Hcs]. rewrite Forall_forall in Hc.
  apply elem_of_cons in H1 as [->|H1]; apply elem_of_cons in H2 as [->|H2].
  - done.
  - by apply (Hc c2).
  - by apply (Hc c1).
  - by apply IH.
Qed.

(** Two codes that leave a node by different branches are incomparable. *)
Lemma branches_incomparable p c c' :
  (p ++ [false]) `prefix_of` c → (p ++ [true]) `prefix_of` c' →
  incomparable c c'.
Proof.
  intros [k ->] [k' ->]. split; intros [j Hj];
    rewrite <- !app_assoc in Hj; apply app_inv_head in Hj; discriminate.
Qed.
End prefix_free_facts.

Section tree_facts.
Context {Symbol : Type}.
Implicit Types (node l r : Node Symbol) (code : bits).

Lemma node_codes_merged (f : nat) l r code :
  node_codes (mkNode None f (Some l) (Some r)) code =
    node_codes l (code ++ [false]) ++ node_codes r (code ++ [true]).
Proof. done. Qed.

(** The symbols met by the walk do not depend on the path. *)
Lemma node_codes_symbols node code :
  tree_node node → (node_codes node code).*1 = node_symbols node.
Proof.
  unfold node_symbols. intros Ht. generalize (@nil bool). revert code.
  induction Ht as [s f|f l r Hl IHl Hr IHr]; intros code code'; [done|].
  rewrite !node_codes_merged, !fmap_app.
  by rewrite (IHl _ (code' ++ [false])), (IHr _ (code' ++ [true])).
Qed.

Lemma node_symbols_merged (f : nat) l r :
  tree_node l → tree_node r →
  node_symbols (mkNode None f (Some l) (Some r)) =
    node_symbols l ++ node_symbols r.
Proof.
  intros Hl Hr. unfold node_symbols at 1.
  by rewrite node_codes_merged, fmap_app, !node_codes_symbols.
Qed.

(** Every code assigned below a node extends the path to the node. *)
Lemma node_codes_extend node code :
  tree_node node → Forall (λ c, code `prefix_of` c) (node_codes node code).*2.
Proof.
  intros Ht. revert code.
  induction Ht as [s f|f l r Hl IHl Hr IHr]; intros code.
  - by repeat constructor.
  - rewrite node_codes_merged, fmap_app, Forall_app. split.
    + eapply Forall_impl; [apply IHl|]. intros c Hc.
      etrans; [|done]. by apply prefix_app_r.
    + eapply Forall_impl; [apply IHr|]. intros c Hc.
      etrans; [|done]. by apply prefix_app_r.
Qed.

(** The codes assigned below a node are prefix-free. *)
Lemma node_codes_prefix_free node code :
  tree_node node → prefix_free (node_codes node code).*2.
Proof.
  intros Ht. revert code.
  induction Ht as [s f|f l r Hl IHl Hr IHr]; intros code.
  - simpl. by split.
  - rewrite node_codes_merged, fmap_app, prefix_free_app.
    split_and!; [apply IHl | apply IHr |].
    eapply Forall_impl; [apply (node_codes_extend l); done|].
    intros c Hc. simpl in Hc.
    eapply Forall_impl; [apply (node_codes_extend r); done|].
    intros c' Hc'. simpl in Hc'. by eapply branches_incomparable.
Qed.

(** Below a merged node every code is longer than the path to it. *)
Lemma node_codes_longer node code :
  tree_node node → 2 ≤ length (node_symbols node) →
  Forall (λ c, length code < length c) (node_codes node code).*2.
Proof.
  intros Ht. destruct Ht as [s f|f l r Hl Hr]; [simpl; lia|]. intros _.
  rewrite node_codes_merged, fmap_app, Forall_app. split.
  - eapply Forall_impl; [apply (node_codes_extend l); done|].
    intros c [k ->]. rewrite !length_app. simpl. lia.
  - eapply Forall_impl; [apply (node_codes_extend r); done|].
    intros c [k ->]. rewrite !length_app. simpl. lia.
Qed.
End tree_facts.

Section foldl_insert.
Context {K V : Type} `{Countable K}.
Implicit Types (m : gmap K V) (es : list (K * V)).

Lemma foldl_insert_notin es m (k : K) :
  k ∉ es.*1 → foldl (λ m e, <[e.1 := e.2]> m) m es !! k = m !! k.
Proof.
  revert m. induction es as [|[k0 v0] es IH]; intros m Hk; [done|].
  rewrite fmap_cons, not_elem_of_cons in Hk. destruct Hk as [Hne Hk].
  cbn [foldl]. rewrite IH by done. by apply lookup_insert_ne.
Qed.

Lemma foldl_insert_elem_of es m (k : K) (v : V) :
  NoDup es.*1 → (k, v) ∈ es →
  foldl (λ m e, <[e.1 := e.2]> m) m es !! k = Some v.
Proof.
  revert m. induction es as [|[k0 v0] es IH]; intros m Hnd Hin.
  { by apply elem_of_nil in Hin. }
  rewrite fmap_cons in Hnd. apply NoDup_cons in Hnd as [Hk0 Hnd].
  cbn [foldl]. apply elem_of_cons in Hin as [[= -> ->]|Hin].
  - rewrite foldl_insert_notin by done. apply lookup_insert_eq.
  - by apply IH.
Qed.

(** Starting from the empty dictionary, the assignments leave exactly
    the pairs of the list. *)
Lemma foldl_insert_empty es (k : K) (v : V) :
  NoDup es.*1 →
  foldl (λ m e, <[e.1 := e.2]> m) ∅ es !! k = Some v ↔ (k, v) ∈ es.
Proof.
  intros Hnd. split; [|by apply foldl_insert_elem_of].
  intros Hl. destruct (decide (k ∈ es.*1)) as [Hin|Hnin].
  - apply list_elem_of_fmap in Hin as ([k' v'] & -> & Hin).
    rewrite (foldl_insert_elem_of _ _ _ v' Hnd Hin) in Hl. by injection Hl as ->.
  - rewrite foldl_insert_notin in Hl by done. by rewrite lookup_empty in Hl.
Qed.
End foldl_insert.

Section tables.
Context {Symbol : Type} `{Countable Symbol}.
Implicit Types (self : HuffmanCoding Symbol) (node : Node Symbol).
Implicit Types (es : list (Symbol * bits)).

Lemma build_codes_node_foldl node (code : bits) self :
  tree_node node →
  _build_codes_node node code self =
    foldl (λ self e, set_code self e.1 e.2) self (node_codes node code).
Proof.
  intros Ht. revert code self.
  induction Ht as [s f|f l r Hl IHl Hr IHr]; intros code self; [done|].
  rewrite node_codes_merged, foldl_app. cbn [_build_codes_node symbol left right].
  by rewrite IHl, IHr.
Qed.

Lemma foldl_set_code_codes self es :
  codes (foldl (λ self e, set_code self e.1 e.2) self es) =
    foldl (λ m e, <[e.1 := e.2]> m) (codes self) es.
Proof. revert self. induction es as [|e es IH]; intros self; [done|]. apply IH. Qed.

Lemma foldl_set_code_reverse_mapping self es :
  reverse_mapping (foldl (λ self e, set_code self e.1 e.2) self es) =
    foldl (λ m e, <[e.1 := e.2]> m) (reverse_mapping self) (swap_entry <$> es).
Proof. revert self. induction es as [|e es IH]; intros self; [done|]. apply IH. Qed.

Lemma foldl_set_code_fields self es :
  let self' := foldl (λ self e, set_code self e.1 e.2) self es in
  file_type self' = file_type self ∧ image_shape self' = image_shape self ∧
  heap self' = heap self.
Proof.
  revert self. induction es as [|e es IH]; intros self; [done|].
  exact (IH (set_code self e.1 e.2)).
Qed.

Lemma swap_entry_fst es : (swap_entry <$> es).*1 = es.*2.
Proof. rewrite <- list_fmap_compose. done. Qed.

Lemma elem_of_swap_entry es (s : Symbol) (c : bits) :
  (c, s) ∈ swap_entry <$> es ↔ (s, c) ∈ es.
Proof.
  rewrite list_elem_of_fmap. split.
  - intros ([s' c'] & [= -> ->] & Hin). done.
  - intros Hin. by exists (s, c).
Qed.
End tables.

Section forest.
Context {Symbol : Type} `{Countable Symbol}.
Implicit Types (self : HuffmanCoding Symbol) (h : list (Node Symbol)).
Implicit Types (freq_dict : list (Symbol * nat)).

Lemma set_heap_id self : set_heap self (heap self) = self.
Proof. by destruct self. Qed.

Lemma forest_symbols_cons (node : Node Symbol) h :
  forest_symbols (node :: h) = node_symbols node ++ forest_symbols h.
Proof. done. Qed.

Lemma forest_symbols_perm h h' :
  h ≡ₚ h' → forest_symbols h ≡ₚ forest_symbols h'.
Proof. intros Hp. unfold forest_symbols. by rewrite Hp. Qed.

Lemma forest_symbols_leaves freq_dict :
  forest_symbols (leaf_of_item <$> freq_dict) = freq_dict.*1.
Proof.
  induction freq_dict as [|[s f] fd IH]; [done|].
  rewrite !fmap_cons, forest_symbols_cons, IH. done.
Qed.

Lemma Forall_tree_node_leaves freq_dict :
  Forall tree_node (leaf_of_item <$> freq_dict : list (Node Symbol)).
Proof.
  apply Forall_fmap, Forall_forall. intros [s f] _. apply tree_leaf.
Qed.

(** [_build_heap] never fails and adds one leaf per item. *)
Lemma build_heap_perm freq_dict self :
  ∃ h, _build_heap self freq_dict = Ok (set_heap self h) ∧
       h ≡ₚ heap self ++ (leaf_of_item <$> freq_dict).
Proof.
  revert self. induction freq_dict as [|item fd IH]; intros self.
  - exists (heap self). rewrite set_heap_id, app_nil_r. done.
  - unfold _build_heap. cbn [for_each].
    destruct (heappush_perm Node_lt (heap self) (leaf_of_item item))
      as (h1 & Hpush & Hperm1).
    unfold leaf_of_item in Hpush. rewrite Hpush, !bind_Ok.
    destruct (IH (set_heap self h1)) as (h2 & Hrec & Hperm2).
    unfold _build_heap in Hrec. rewrite Hrec.
    exists h2. split; [done|].
    rewrite Hperm2. cbn [heap set_heap]. rewrite Hperm1, fmap_cons.
    apply Permutation_middle.
Qed.

(** [_merge_nodes] never fails; it keeps the leaves and, unless the heap
    is empty, leaves a single tree. *)
Lemma merge_nodes_loop_perm (fuel : nat) self :
  length (heap self) ≤ fuel → Forall tree_node (heap self) →
  ∃ h, _merge_nodes_loop fuel self = Ok (set_heap self h) ∧
       Forall tree_node h ∧
       forest_symbols h ≡ₚ forest_symbols (heap self) ∧
       length h = length (heap self) `min` 1.
Proof.
  revert self. induction fuel as [|fuel IH]; intros self Hfuel Hwf.
  { exists (heap self). rewrite set_heap_id. simpl. split_and!; [done..|lia]. }
  cbn [_merge_nodes_loop]. case_decide as Hlen.
  2:{ exists (heap self). rewrite set_heap_id. split_and!; [done..|lia]. }
  destruct (heappop_perm Node_lt (heap self)) as (node1 & h1 & -> & Hp1).
  { intros E. rewrite E in Hlen. simpl in Hlen. lia. }
  rewrite bind_Ok. cbn [fst snd].
  assert (length h1 = length (heap self) - 1) as Hlen1.
  { rewrite <- Hp1. simpl. lia. }
  destruct (heappop_perm Node_lt h1) as (node2 & h2 & -> & Hp2).
  { intros E. rewrite E in Hlen1. simpl in Hlen1. lia. }
  rewrite bind_Ok. cbn [fst snd].
  assert (length h2 = length h1 - 1) as Hlen2.
  { rewrite <- Hp2. simpl. lia. }
  set (merged := mkNode None (freq node1 + freq node2)
                        (Some node1) (Some node2)).
  destruct (heappush_perm Node_lt h2 merged) as (h3 & -> & Hp3).
  rewrite bind_Ok.
  assert (Forall tree_node (node1 :: node2 :: h2)) as Hwf'.
  { rewrite Hp2, Hp1. done. }
  apply Forall_cons in Hwf' as [Hn1 Hwf'].
  apply Forall_cons in Hwf' as [Hn2 Hwf2].
  destruct (IH (set_heap self h3)) as (h4 & Hrec & Hwf4 & Hsym & Hlen4).
  { cbn [heap set_heap]. rewrite Hp3. simpl. lia. }
  { cbn [heap set_heap]. rewrite Hp3. apply Forall_cons. split; [|done].
    by apply tree_merged. }
  cbn [heap set_heap] in Hsym, Hlen4. rewrite Hrec.
  exists h4. split_and!; [done | done | |].
  - rewrite Hsym. unfold forest_symbols at 1. rewrite Hp3.
    fold (forest_symbols (merged :: h2)). rewrite forest_symbols_cons.
    unfold merged. rewrite node_symbols_merged by done.
    unfold forest_symbols at 2. rewrite <- Hp1, <- Hp2.
    fold (forest_symbols (node1 :: node2 :: h2)).
    by rewrite !forest_symbols_cons, app_assoc.
  - rewrite Hlen4, Hp3. simpl. lia.
Qed.
End forest.

(** * The tables derived from a frequency dictionary *)

Section derived_tables.
Context {Symbol : Type} `{Countable Symbol}.
Implicit Types (self : HuffmanCoding Symbol) (es : list (Symbol * bits)).
Implicit Types (freq_dict : list (Symbol * nat)) (data : list Symbol).

(** On a fresh instance and a non-empty dictionary, the three calls
    succeed and the tables are those of the walk of one tree whose
    leaves are the keys of the dictionary. *)
Lemma build_tables_tree (file_type : string) (image_shape : option (list nat))
    freq_dict :
  freq_dict ≠ [] →
  let self := HuffmanCoding_init file_type image_shape in
  ∃ root, tree_node root ∧ node_symbols root ≡ₚ freq_dict.*1 ∧
          build_tables self freq_dict = Ok (_build_codes_node root [] self).
Proof.
  intros Hne self. unfold build_tables.
  destruct (build_heap_perm freq_dict self) as (h & -> & Hperm).
  rewrite bind_Ok. simpl in Hperm.
  assert (Forall tree_node h) as Hwf
    by (rewrite Hperm; apply Forall_tree_node_leaves).
  destruct (merge_nodes_loop_perm (length h) (set_heap self h))
    as (h' & Hmerge & Hwf' & Hsym & Hlen); [done | done |].
  cbn [heap set_heap] in Hsym, Hlen.
  unfold _merge_nodes. cbn [heap set_heap]. rewrite Hmerge, bind_Ok.
  assert (length h = length freq_dict) as Hh
    by (by rewrite Hperm, length_fmap).
  destruct freq_dict as [|item fd]; [done|].
  destruct h' as [|root [|? ?]]; [simpl in *; lia | | simpl in *; lia].
  exists root. split_and!.
  - by apply Forall_cons in Hwf' as [? _].
  - rewrite <- (forest_symbols_leaves (item :: fd)).
    rewrite <- (forest_symbols_perm _ _ Hperm), <- Hsym.
    unfold forest_symbols. simpl. by rewrite app_nil_r.
  - reflexivity.
Qed.

(** The list of assignments behind the tables. *)
Lemma build_tables_entries (ft : string) (shape : option (list nat))
    freq_dict :
  freq_dict ≠ [] → NoDup freq_dict.*1 →
  ∃ self' es,
    build_tables (HuffmanCoding_init ft shape) freq_dict
      = Ok self' ∧
    es.*1 ≡ₚ freq_dict.*1 ∧
    prefix_free es.*2 ∧
    (∀ s c, codes self' !! s = Some c ↔ (s, c) ∈ es) ∧
    (∀ s c, reverse_mapping self' !! c = Some s ↔ (s, c) ∈ es) ∧
    (2 ≤ length freq_dict → Forall (λ c, 1 ≤ length c) es.*2) ∧
    file_type self' = ft ∧
    image_shape self' = shape.
Proof.
  intros Hne Hnd.
  destruct (build_tables_tree ft shape freq_dict Hne)
    as (root & Ht & Hsym & Hbt).
  rewrite build_codes_node_foldl in Hbt by done.
  set (es := node_codes root []) in *.
  assert (es.*1 ≡ₚ freq_dict.*1) as Hkeys.
  { unfold es. by rewrite node_codes_symbols. }
  assert (prefix_free es.*2) as Hpf by (by apply node_codes_prefix_free).
  eexists _, es. split; [exact Hbt|].
  split_and!; [done | done | | | | |].
  - intros s c. rewrite foldl_set_code_codes.
    apply foldl_insert_empty. by rewrite Hkeys.
  - intros s c. rewrite foldl_set_code_reverse_mapping.
    rewrite <- elem_of_swap_entry. apply foldl_insert_empty.
    rewrite swap_entry_fst. by apply prefix_free_NoDup.
  - intros Hlen. eapply Forall_impl.
    + apply (node_codes_longer root []); [done|].
      rewrite Hsym, length_fmap. done.
    + intros c Hc. simpl in Hc. lia.
  - by destruct (foldl_set_code_fields (HuffmanCoding_init ft shape) es)
      as (-> & _ & _).
  - by destruct (foldl_set_code_fields (HuffmanCoding_init ft shape) es)
      as (_ & -> & _).
Qed.
End derived_tables.

(** * Encoding and decoding with a prefix-free table *)

Section codec.
Context {Symbol : Type} `{Countable Symbol}.
Implicit Types (self : HuffmanCoding Symbol) (es : list (Symbol * bits)).
Implicit Types (data out : list Symbol) (c rest : bits).

(** Every symbol that has a code is encoded by it. *)
Lemma get_encoded_data_codes self es data :
  (∀ s c, codes self !! s = Some c ↔ (s, c) ∈ es) →
  (∀ s, s ∈ data → s ∈ es.*1) →
  ∃ cs, _get_encoded_data self data = Ok (mjoin cs) ∧
        Forall2 (λ s c, (s, c) ∈ es) data cs.
Proof.
  intros Hcodes Hdata. unfold _get_encoded_data.
  assert (∃ cs, mapM (codes_getitem self) data = Ok cs ∧
                Forall2 (λ s c, (s, c) ∈ es) data cs) as (cs & -> & Hcs);
    [|by exists cs].
  induction data as [|s data IH]; [by exists []|].
  destruct IH as (cs & Hm & Hcs).
  { intros s' Hs'. apply Hdata. by apply list_elem_of_further. }
  assert (s ∈ es.*1) as Hs by apply Hdata, list_elem_of_here.
  apply list_elem_of_fmap in Hs as ([s' c] & -> & Hin).
  cbn [fst] in *. exists (c :: cs). split; [|by constructor].
  assert (codes_getitem self s' = Ok c) as Hget.
  { unfold codes_getitem. by apply Hcodes in Hin as ->. }
  cbn [mapM fst]. rewrite Hget, bind_Ok, Hm. done.
Qed.

(** The bits of one code decode to its symbol and empty the accumulator. *)
Lemma decode_code self es (s : Symbol) c rest out :
  (∀ s c, reverse_mapping self !! c = Some s ↔ (s, c) ∈ es) →
  prefix_free es.*2 → (s, c) ∈ es → 1 ≤ length c →
  foldl (_decode_step self) ([], out) (c ++ rest) =
    foldl (_decode_step self) ([], out ++ [s]) rest.
Proof.
  intros Hrm Hpf Hin Hlen.
  destruct c as [|b c' _] using rev_ind; [simpl in Hlen; lia|]. clear Hlen.
  rewrite !foldl_app. f_equal.
  rewrite (decode_steps_no_hit self c' [] out).
  - cbn [foldl app]. unfold _decode_step. cbn [fst snd].
    apply Hrm in Hin as ->. done.
  - intros k Hk. cbn [app].
    destruct (reverse_mapping self !! take k c') as [s'|] eqn:Hl; [|done].
    exfalso. apply Hrm in Hl.
    apply (prefix_free_elem_of es.*2 (take k c') (c' ++ [b])).
    + done.
    + apply list_elem_of_fmap. by exists (s', take k c').
    + apply list_elem_of_fmap. by exists (s, c' ++ [b]).
    + intros E. apply (f_equal length) in E.
      rewrite length_take, length_app in E. simpl in E. lia.
    + exists (drop k c' ++ [b]). by rewrite app_assoc, take_drop.
Qed.

(** The concatenated codes of a sequence decode to the sequence. *)
Lemma decode_codes self es data (cs : list bits) out :
  (∀ s c, reverse_mapping self !! c = Some s ↔ (s, c) ∈ es) →
  prefix_free es.*2 → Forall (λ c, 1 ≤ length c) es.*2 →
  Forall2 (λ s c, (s, c) ∈ es) data cs →
  foldl (_decode_step self) ([], out) (mjoin cs) = ([], out ++ data).
Proof.
  intros Hrm Hpf Hlen Hcs. revert out.
  induction Hcs as [|s c data cs Hin Hcs IH]; intros out.
  - by rewrite app_nil_r.
  - cbn [mjoin list_join]. rewrite (decode_code self es s c); [|done..|].
    + rewrite IH. by rewrite <- app_assoc.
    + rewrite Forall_forall in Hlen. apply Hlen.
      apply list_elem_of_fmap. by exists (s, c).
Qed.

Lemma two_elements_length {A} (l : list A) (x y : A) :
  x ∈ l → y ∈ l → x ≠ y → 2 ≤ length l.
Proof.
  intros Hx Hy Hne. destruct l as [|a [|b l]]; [| |simpl; lia].
  - by apply elem_of_nil in Hx.
  - apply list_elem_of_singleton in Hx, Hy. congruence.
Qed.


(** X13. For every sequence in which at least two distinct symbols occur,
    [compress] on a fresh instance succeeds, and [decompress] applied by
    any instance to the container returns the sequence. *)
Theorem compress_decompress_roundtrip (ft : string)
    (shape : option (list nat)) data (x y : Symbol) :
  x ∈ data → y ∈ data → x ≠ y →
  ∃ container,
    compress (HuffmanCoding_init ft shape) data = Ok container ∧
    ∀ self, decompress_try self container = Ok data ∧
            decompress self container = Some data.
Proof.
  intros Hx Hy Hxy. set (self0 := HuffmanCoding_init ft shape).
  destruct (build_frequency_dict_inv self0 data) as (Hnd & Hkeys & _ & _).
  set (freq_dict := _build_frequency_dict self0 data) in *.
  assert (2 ≤ length freq_dict) as H2.
  { rewrite <- (length_fmap fst).
    apply (two_elements_length _ x y); [by apply Hkeys..|done]. }
  destruct (build_tables_entries ft shape freq_dict)
    as (self' & es & Hbt & Hes & Hpf & Hcodes & Hrm & Hlen & _ & _);
    [intros E; rewrite E in H2; simpl in H2; lia | done |].
  specialize (Hlen H2).
  destruct (get_encoded_data_codes self' es data Hcodes)
    as (cs & Henc & Hcs).
  { intros s Hs. rewrite Hes. by apply Hkeys. }
  destruct (get_byte_array_bits _ _ (length_pad_encoded_data (mjoin cs)))
    as (byte_array & Hbytes & Hbits).
  eexists. split.
  { rewrite compress_build_tables. fold freq_dict. unfold self0 in *.
    rewrite Hbt, bind_Ok, Henc, bind_Ok, Hbytes, bind_Ok. reflexivity. }
  intros self.
  assert (decompress_try self
            (mkContainer byte_array (reverse_mapping self')
               (_pad_encoded_data (mjoin cs)).2
               (file_type self') (image_shape self')) = Ok data) as Hd.
  { unfold decompress_try. cbn [container_bytes container_reverse_mapping].
    rewrite Hbits, remove_padding_padded, bind_Ok.
    unfold _decode_data, _decode_loop. f_equal.
    rewrite (decode_codes _ es data cs []); done. }
  split; [done|]. unfold decompress. by rewrite Hd.
Qed.
End codec.

(** * The bounds on the loops

    Each [while] loop is embedded with a bound on the number of its
    turns. The bound used by the embedding is enough: with any larger
    bound the loop returns the same result, so the loop has left by its
    own test before the bound is reached. *)

Section loop_bounds.
Context {A : Type} (lt : A → A → bool).
Implicit Types (heap : list A) (newitem : A).

Lemma siftdown_loop_S (fuel : nat) heap (startpos pos : nat) newitem :
  _siftdown_loop lt (S fuel) heap startpos pos newitem =
    if decide (startpos < pos) then
      parent ← getitem heap ((pos - 1) / 2);
      if lt newitem parent then
        heap' ← setitem heap pos parent;
        _siftdown_loop lt fuel heap' startpos ((pos - 1) / 2) newitem
      else Ok (heap, pos)
    else Ok (heap, pos).
Proof. done. Qed.

Lemma siftdown_loop_bound (fuel : nat) heap (startpos pos : nat) newitem :
  pos ≤ fuel →
  _siftdown_loop lt (S fuel) heap startpos pos newitem =
    _siftdown_loop lt fuel heap startpos pos newitem.
Proof.
  revert heap pos. induction fuel as [|fuel IH]; intros heap pos Hpos.
  { rewrite siftdown_loop_S, decide_False by lia. done. }
  rewrite (siftdown_loop_S (S fuel)), (siftdown_loop_S fuel).
  case_decide as Hstart; [|done].
  assert ((pos - 1) / 2 ≤ fuel) as Hparent.
  { pose proof (Nat.Div0.div_le_upper_bound (pos - 1) 2 (pos - 1)). lia. }
  set (parentpos := (pos - 1) / 2) in *.
  destruct (getitem heap parentpos) as [parent|e]; [|done].
  rewrite !bind_Ok. destruct (lt newitem parent); [|done].
  destruct (setitem heap pos parent) as [heap'|e]; [|done].
  rewrite !bind_Ok. by apply IH.
Qed.

Lemma siftup_loop_S (fuel : nat) heap (endpos pos : nat) :
  _siftup_loop lt (S fuel) heap endpos pos =
    if decide (2 * pos + 1 < endpos) then
      childpos' ←
        (if decide (2 * pos + 1 + 1 < endpos) then
           c ← getitem heap (2 * pos + 1);
           r ← getitem heap (2 * pos + 1 + 1);
           Ok (if negb (lt c r) then 2 * pos + 1 + 1 else 2 * pos + 1)
         else Ok (2 * pos + 1));
      child ← getitem heap childpos';
      heap' ← setitem heap pos child;
      _siftup_loop lt fuel heap' endpos childpos'
    else Ok (heap, pos).
Proof. done. Qed.

Lemma siftup_loop_bound (fuel : nat) heap (endpos pos : nat) :
  endpos ≤ fuel + pos →
  _siftup_loop lt (S fuel) heap endpos pos =
    _siftup_loop lt fuel heap endpos pos.
Proof.
  revert heap pos. induction fuel as [|fuel IH]; intros heap pos Hpos.
  { rewrite siftup_loop_S, decide_False by lia. done. }
  rewrite (siftup_loop_S (S fuel)), (siftup_loop_S fuel).
  set (childpos := 2 * pos + 1) in *.
  case_decide as Hchild; [|done].
  case_decide as Hright.
  - destruct (getitem heap childpos) as [c|e]; [|done].
    destruct (getitem heap (childpos + 1)) as [r|e]; [|done].
    rewrite !bind_Ok.
    set (childpos' := if negb (lt c r) then childpos + 1 else childpos).
    assert (pos < childpos') as Hlt
      by (unfold childpos', childpos; destruct (negb (lt c r)); lia).
    destruct (getitem heap childpos') as [child|e]; [|done].
    rewrite !bind_Ok.
    destruct (setitem heap pos child) as [heap'|e]; [|done].
    rewrite !bind_Ok. apply IH. lia.
  - rewrite !bind_Ok.
    destruct (getitem heap childpos) as [child|e]; [|done].
    rewrite !bind_Ok.
    destruct (setitem heap pos child) as [heap'|e]; [|done].
    rewrite !bind_Ok. apply IH. unfold childpos. lia.
Qed.
(** The bounds that [_siftdown] and [_siftup] pass are enough. *)
Lemma siftdown_loop_enough (k : nat) heap (startpos pos : nat) newitem :
  _siftdown_loop lt (pos + k) heap startpos pos newitem =
    _siftdown_loop lt pos heap startpos pos newitem.
Proof.
  induction k as [|k IH]; [by rewrite Nat.add_0_r|].
  rewrite Nat.add_succ_r, siftdown_loop_bound by lia. done.
Qed.

Lemma siftup_loop_enough (k : nat) heap (pos : nat) :
  _siftup_loop lt (length heap + k) heap (length heap) pos =
    _siftup_loop lt (length heap) heap (length heap) pos.
Proof.
  induction k as [|k IH]; [by rewrite Nat.add_0_r|].
  rewrite Nat.add_succ_r, siftup_loop_bound by lia. done.
Qed.
End loop_bounds.

Section merge_bound.
Context {Symbol : Type} `{Countable Symbol}.
Implicit Types (self : HuffmanCoding Symbol).

Lemma heappop_length (h : list (Node Symbol))
    (p : Node Symbol * list (Node Symbol)) :
  heappop Node_lt h = Ok p → length h = S (length p.2).
Proof.
  intros Hp. destruct h as [|n h]; [done|].
  destruct (heappop_perm Node_lt (n :: h)) as (item & h' & Hpop & Hperm);
    [done|].
  rewrite Hpop in Hp. injection Hp as <-. by rewrite <- Hperm.
Qed.

Lemma heappush_length (h h' : list (Node Symbol)) (node : Node Symbol) :
  heappush Node_lt h node = Ok h' → length h' = S (length h).
Proof.
  intros Hp. destruct (heappush_perm Node_lt h node) as (h'' & Hpush & Hperm).
  rewrite Hpush in Hp. injection Hp as <-. by rewrite Hperm.
Qed.

Lemma merge_nodes_loop_S (fuel : nat) self :
  _merge_nodes_loop (S fuel) self =
    if decide (1 < length (heap self)) then
      p1 ← heappop Node_lt (heap self);
      p2 ← heappop Node_lt p1.2;
      h ← heappush Node_lt p2.2
            (mkNode None (freq p1.1 + freq p2.1) (Some p1.1) (Some p2.1));
      _merge_nodes_loop fuel (set_heap self h)
    else Ok self.
Proof. done. Qed.

Lemma merge_nodes_loop_bound (fuel : nat) self :
  length (heap self) ≤ fuel →
  _merge_nodes_loop (S fuel) self = _merge_nodes_loop fuel self.
Proof.
  revert self. induction fuel as [|fuel IH]; intros self Hlen.
  { rewrite merge_nodes_loop_S, decide_False by lia. done. }
  rewrite (merge_nodes_loop_S (S fuel)), (merge_nodes_loop_S fuel).
  case_decide as Hheap; [|done].
  destruct (heappop Node_lt (heap self)) as [p1|e] eqn:Hp1; [|done].
  rewrite !bind_Ok.
  destruct (heappop Node_lt p1.2) as [p2|e] eqn:Hp2; [|done].
  rewrite !bind_Ok.
  destruct (heappush Node_lt p2.2 _) as [h|e] eqn:Hp3; [|done].
  rewrite !bind_Ok. apply IH. cbn [heap set_heap].
  apply heappop_length in Hp1, Hp2. apply heappush_length in Hp3. lia.
Qed.
(** The bound that [_merge_nodes] passes is enough. *)
Lemma merge_nodes_loop_enough (k : nat) self :
  _merge_nodes_loop (length (heap self) + k) self = _merge_nodes self.
Proof.
  unfold _merge_nodes. induction k as [|k IH]; [by rewrite Nat.add_0_r|].
  rewrite Nat.add_succ_r, merge_nodes_loop_bound by lia. done.
Qed.
End merge_bound.

(** * The scenarios of the specification, evaluated *)

Example abracadabra_frequencies :
  _build_frequency_dict text_coding text_abracadabra =
    [("a", 5); ("b", 2); ("r", 2); ("c", 1); ("d", 1)]%char.
Proof. reflexivity. Qed.

Example abracadabra_container :
  (data ← compress text_coding text_abracadabra;
   Ok (container_bytes data, container_padding data)) =
    Ok ([1; 124; 138; 248], 1).
Proof. vm_compute. reflexivity. Qed.

Example abracadabra_roundtrip :
  (compress text_coding text_abracadabra ≫= decompress_try text_coding) =
    Ok text_abracadabra.
Proof. vm_compute. reflexivity. Qed.

Example two_equal_pixels_container :
  (data ← compress image_coding two_equal_pixels;
   Ok (container_bytes data, container_shape data)) =
    Ok ([8; 0], Some [1; 2; 3]).
Proof. vm_compute. reflexivity. Qed.

(** * The order of the heap

    [heappush] and [heappop] keep the items ordered as [heapq] promises
    when [<] compares a key: the root is an item of least key. *)

Section heap_order.
Context {A : Type} (lt : A → A → bool) (key : A → nat).
Hypothesis lt_key : ∀ a b, lt a b = bool_decide (key a < key b).
Implicit Types (heap : list A) (newitem parent : A).

#[local] Ltac Zify.zify_post_hook ::= Z.div_mod_to_equations.

Ltac lookups H :=
  repeat first
    [ rewrite list_lookup_insert_ne in H by lia
    | rewrite list_lookup_insert_eq in H by (rewrite ?length_insert; lia) ].

Ltac lookups_goal :=
  repeat first
    [ rewrite list_lookup_insert_ne by lia
    | rewrite list_lookup_insert_eq by (rewrite ?length_insert; lia) ].

Lemma heap_ordered_root_min heap (r : A) :
  heap_ordered key heap → heap !! 0 = Some r →
  ∀ i x, heap !! i = Some x → key r ≤ key x.
Proof.
  intros Hord Hr i. induction (lt_wf i) as [i _ IH]. intros x Hx.
  destruct (decide (i = 0)) as [->|Hi]; [by simplify_eq|].
  destruct (lookup_lt_is_Some_2 heap ((i - 1) / 2)) as [p Hp].
  { apply lookup_lt_Some in Hx. lia. }
  etrans; [apply (IH ((i - 1) / 2)); [lia|done]|].
  apply (Hord i); [lia|done..].
Qed.

Lemma swim_step heap (pos : nat) parent newitem :
  1 ≤ pos → pos < length heap →
  heap !! ((pos - 1) / 2) = Some parent → key newitem < key parent →
  ordered_except key (<[pos := newitem]> heap) pos →
  ordered_except key
    (<[(pos - 1) / 2 := newitem]> (<[pos := parent]> heap)) ((pos - 1) / 2).
Proof.
  intros Hpos Hlen Hparent Hlt [He Hg].
  set (pp := (pos - 1) / 2) in *.
  assert (pp < pos) as Hpp by (unfold pp; lia).
  assert (∀ i, i ≠ pos → <[pos := newitem]> heap !! i = heap !! i) as Hl
    by (intros; by apply list_lookup_insert_ne).
  split.
  - intros i x p Hi Hne Hx Hp. lookups Hx.
    destruct (decide (i = pos)) as [->|Hip].
    + lookups Hx. fold pp in Hp. lookups Hp. simplify_eq. lia.
    + lookups Hx. destruct (decide ((i - 1) / 2 = pp)) as [Hq|Hq].
      * rewrite Hq in Hp. lookups Hp. simplify_eq.
        assert (key parent ≤ key x); [|lia].
        apply (He i); [done | done | by rewrite Hl |].
        rewrite Hq, Hl by lia. done.
      * lookups Hp. destruct (decide ((i - 1) / 2 = pos)) as [Hq'|Hq'].
        -- rewrite Hq' in Hp. lookups Hp. simplify_eq.
           apply (Hg i); [done | done | done | by rewrite Hl |].
           fold pp. by rewrite Hl by lia.
        -- lookups Hp. apply (He i); [done | done | by rewrite Hl |].
           by rewrite Hl.
  - intros j x g Hpp1 Hj Hjp Hx Hgp.
    assert ((pp - 1) / 2 < pp) by lia. lookups Hgp. lookups Hx.
    assert (key g ≤ key parent) as Hgpar.
    { apply (He pp); [done | lia | by rewrite Hl by lia |].
      by rewrite Hl by lia. }
    destruct (decide (j = pos)) as [->|Hjpos].
    + lookups Hx. by simplify_eq.
    + lookups Hx. assert (key parent ≤ key x); [|lia].
      apply (He j); [done | done | by rewrite Hl |].
      rewrite Hjp, Hl by lia. done.
Qed.

Lemma siftdown_loop_ordered (fuel : nat) heap (pos : nat) newitem
    heap' (pos' : nat) :
  pos ≤ fuel → pos < length heap →
  ordered_except key (<[pos := newitem]> heap) pos →
  _siftdown_loop lt fuel heap 0 pos newitem = Ok (heap', pos') →
  pos' < length heap' ∧ length heap' = length heap ∧
  heap_ordered key (<[pos' := newitem]> heap').
Proof.
  revert heap pos. induction fuel as [|fuel IH]; intros heap pos Hfuel Hlen Hord.
  { intros [= <- <-]. split_and!; [done..|].
    intros i x p Hi. apply Hord. lia. lia. }
  rewrite siftdown_loop_S. case_decide as Hpos.
  2:{ intros [= <- <-]. split_and!; [done..|].
      intros i x p Hi. apply Hord. lia. lia. }
  destruct (getitem_lt heap ((pos - 1) / 2)) as (parent & Hp & ->); [lia|].
  rewrite bind_Ok, lt_key. case_bool_decide as Hlt.
  - rewrite setitem_lt, bind_Ok by done. intros Hloop.
    apply IH in Hloop as (? & Hl' & ?); [| lia | rewrite length_insert; lia |].
    + rewrite length_insert in Hl'. done.
    + by apply swim_step.
  - intros [= <- <-]. split_and!; [done..|].
    intros i x p Hi Hx Hpar.
    destruct (decide (i = pos)) as [->|Hne].
    + lookups Hx. lookups Hpar. simplify_eq. lia.
    + by apply (proj1 Hord i).
Qed.

Lemma siftdown_ordered heap (pos : nat) heap' :
  pos < length heap → ordered_except key heap pos →
  _siftdown lt heap 0 pos = Ok heap' → heap_ordered key heap'.
Proof.
  intros Hlen Hord. unfold _siftdown.
  destruct (getitem_lt heap pos Hlen) as (newitem & Hn & ->).
  rewrite bind_Ok.
  destruct (_siftdown_loop lt pos heap 0 pos newitem) as [[h1 p1]|e] eqn:Hloop;
    [|done].
  apply siftdown_loop_ordered in Hloop as (Hp1 & _ & Hord');
    [| done | done | by rewrite list_insert_id].
  rewrite bind_Ok. cbn [fst snd]. rewrite setitem_lt by done.
  by intros [= <-].
Qed.

Lemma sink_step heap (pos childpos' : nat) (child : A) :
  pos < length heap → 1 ≤ childpos' → (childpos' - 1) / 2 = pos →
  heap !! childpos' = Some child →
  (∀ j y, 1 ≤ j → (j - 1) / 2 = pos → heap !! j = Some y →
          key child ≤ key y) →
  ordered_below key heap pos →
  ordered_below key (<[pos := child]> heap) childpos'.
Proof.
  intros Hlen Hc1 Hcp Hchild Hsmall [He Hg]. split.
  - intros i x p Hi Hq Hx Hp.
    destruct (decide (i = pos)) as [->|Hne].
    + lookups Hx. lookups Hp. simplify_eq.
      by apply (Hg childpos' x p).
    + lookups Hx. destruct (decide ((i - 1) / 2 = pos)) as [Hq'|Hq'].
      * rewrite Hq' in Hp. lookups Hp. simplify_eq. by apply (Hsmall i).
      * lookups Hp. by apply (He i).
  - intros j x g _ Hj Hjp Hx Hgp.
    rewrite Hcp in Hgp. lookups Hgp. injection Hgp as <-. lookups Hx.
    apply (He j); [done | lia | done |]. by rewrite Hjp.
Qed.

Lemma siftup_loop_ordered (fuel : nat) heap (pos : nat) heap' (pos' : nat) :
  length heap ≤ fuel + pos → pos < length heap →
  ordered_below key heap pos →
  _siftup_loop lt fuel heap (length heap) pos = Ok (heap', pos') →
  pos' < length heap' ∧ length heap' = length heap ∧
  ordered_below key heap' pos' ∧ length heap ≤ 2 * pos' + 1.
Proof.
  revert heap pos. induction fuel as [|fuel IH]; intros heap pos Hfuel Hlen Hord.
  { lia. }
  rewrite siftup_loop_S. case_decide as Hchild.
  2:{ intros [= <- <-]. split_and!; [done..|lia]. }
  set (childpos := 2 * pos + 1) in *.
  assert (∃ childpos' child,
    (if decide (childpos + 1 < length heap)
     then c ← getitem heap childpos;
          r ← getitem heap (childpos + 1);
          Ok (if negb (lt c r) then childpos + 1 else childpos)
     else Ok childpos) = Ok childpos' ∧
    1 ≤ childpos' ∧ (childpos' - 1) / 2 = pos ∧ pos < childpos' ∧
    heap !! childpos' = Some child ∧
    ∀ j y, 1 ≤ j → (j - 1) / 2 = pos → heap !! j = Some y →
           key child ≤ key y)
    as (childpos' & child & -> & Hc1 & Hcp & Hgt & Hlook & Hsmall).
  { destruct (getitem_lt heap childpos) as (c & Hc & Hgc); [lia|].
    case_decide as Hright.
    - destruct (getitem_lt heap (childpos + 1)) as (r & Hr & Hgr); [lia|].
      rewrite Hgc, bind_Ok, Hgr, bind_Ok, lt_key.
      case_bool_decide as Hcr; cbn [negb].
      + exists childpos, c. unfold childpos in *.
        split_and!; [done | lia | lia | lia | done |].
        intros j y Hj Hjp Hy.
        assert (j = 2 * pos + 1 ∨ j = 2 * pos + 1 + 1) as [->| ->] by lia;
          simplify_eq; lia.
      + exists (childpos + 1), r. unfold childpos in *.
        split_and!; [done | lia | lia | lia | done |].
        intros j y Hj Hjp Hy.
        assert (j = 2 * pos + 1 ∨ j = 2 * pos + 1 + 1) as [->| ->] by lia;
          simplify_eq; lia.
    - exists childpos, c. unfold childpos in *.
      split_and!; [done | lia | lia | lia | done |].
      intros j y Hj Hjp Hy. apply lookup_lt_Some in Hy as Hjl.
      assert (j = 2 * pos + 1) as -> by lia. simplify_eq. lia. }
  rewrite bind_Ok.
  assert (getitem heap childpos' = Ok child) as ->
    by (unfold getitem; by rewrite Hlook).
  rewrite bind_Ok, setitem_lt, bind_Ok by done. intros Hloop.
  replace (length heap) with (length (<[pos := child]> heap)) in Hloop
    by apply length_insert.
  apply IH in Hloop as (Hp' & Hl' & Hord' & Hleaf).
  - rewrite !length_insert in *. done.
  - rewrite length_insert. lia.
  - rewrite length_insert. by apply lookup_lt_Some in Hlook.
  - by apply sink_step.
Qed.

Lemma siftup_ordered heap heap' :
  0 < length heap → ordered_below key heap 0 →
  _siftup lt heap 0 = Ok heap' → heap_ordered key heap'.
Proof.
  intros Hlen Hord. unfold _siftup.
  destruct (getitem_lt heap 0 Hlen) as (newitem & Hn & ->).
  rewrite bind_Ok.
  destruct (_siftup_loop lt (length heap) heap (length heap) 0)
    as [[h1 p1]|e] eqn:Hloop; [|done].
  apply siftup_loop_ordered in Hloop as (Hp1 & Hl1 & [He Hg] & Hleaf);
    [| lia | done | done].
  rewrite bind_Ok. cbn [fst snd]. rewrite setitem_lt, bind_Ok by done.
  apply siftdown_ordered; [by rewrite length_insert|].
  split.
  - intros i x p Hi Hne Hx Hp. lookups Hx.
    apply lookup_lt_Some in Hx as Hil.
    assert ((i - 1) / 2 ≠ p1) as Hq by lia. lookups Hp.
    by apply (He i).
  - intros j x g _ Hj Hjp Hx _. lookups Hx.
    apply lookup_lt_Some in Hx. lia.
Qed.

(** [heappush] keeps the heap ordered. *)
Lemma heappush_ordered heap (item : A) heap' :
  heap_ordered key heap → heappush lt heap item = Ok heap' →
  heap_ordered key heap'.
Proof.
  intros Hord. unfold heappush. apply siftdown_ordered.
  { rewrite length_app. simpl. lia. }
  rewrite length_app. simpl.
  replace (length heap + 1 - 1) with (length heap) by lia. split.
  - intros i x p Hi Hne Hx Hp.
    apply lookup_snoc_Some in Hx as [[Hil Hx]|[-> _]]; [|done].
    rewrite lookup_app_l in Hp by lia. by apply (Hord i).
  - intros j x g _ Hj Hjp Hx _. apply lookup_lt_Some in Hx.
    rewrite length_app in Hx. simpl in Hx. lia.
Qed.

(** [heappop] returns an item of least key and keeps the heap ordered. *)
Lemma heappop_ordered heap (item : A) heap' :
  heap_ordered key heap → heappop lt heap = Ok (item, heap') →
  heap_ordered key heap' ∧ ∀ x, x ∈ heap → key item ≤ key x.
Proof.
  intros Hord. unfold heappop, list_pop.
  destruct heap as [|lastelt heap0 _] using rev_ind; [done|].
  rewrite last_snoc, length_app. simpl.
  replace (length heap0 + 1 - 1) with (length heap0) by lia.
  rewrite !take_app_length.
  destruct heap0 as [|returnitem rest].
  { intros [= <- <-]. split; [intros i x p _ Hx; done|].
    intros x Hx. apply list_elem_of_singleton in Hx as ->. done. }
  change (getitem (returnitem :: rest) 0) with (Ok returnitem).
  change (setitem (returnitem :: rest) 0 lastelt) with
    (Ok (A:=list A) (lastelt :: rest)).
  rewrite !bind_Ok.
  destruct (_siftup lt (lastelt :: rest) 0) as [h|e] eqn:Hs; [|done].
  rewrite bind_Ok. intros [= <- <-]. split.
  - apply siftup_ordered in Hs; [done | simpl; lia |]. split; [|lia].
    intros i x p Hi Hq Hx Hp.
    destruct i as [|i]; [lia|].
    destruct ((S i - 1) / 2) as [|q] eqn:Eq; [done|].
    apply (Hord (S i)); [lia | .. ].
    + apply lookup_app_l_Some. done.
    + rewrite Eq. apply lookup_app_l_Some. done.
  - intros x Hx. apply list_elem_of_lookup in Hx as [i Hx].
    by apply (heap_ordered_root_min _ returnitem Hord eq_refl i).
Qed.
End heap_order.

Section huffman_build.
Context {Symbol : Type} `{Countable Symbol}.
Implicit Types (self : HuffmanCoding Symbol) (h : list (Node Symbol)).
Implicit Types (node l r : Node Symbol) (freq_dict : list (Symbol * nat)).

Lemma Node_lt_freq (a b : Node Symbol) :
  Node_lt a b = bool_decide (freq a < freq b).
Proof. done. Qed.

Lemma huffman_tree_tree_node node : huffman_tree node → tree_node node.
Proof. induction 1; by constructor. Qed.

Lemma node_leaves_merged (f : nat) l r :
  node_leaves (mkNode None f (Some l) (Some r)) =
    node_leaves l ++ node_leaves r.
Proof. done. Qed.

Lemma sum_list_append (l k : list nat) :
  sum_list (l ++ k) = sum_list l + sum_list k.
Proof. induction l as [|x l IH]; simpl; lia. Qed.

Lemma huffman_tree_freq node :
  huffman_tree node → freq node = sum_list (node_leaves node).*2.
Proof.
  induction 1 as [s f|l r Hl IHl Hr IHr Hle]; [simpl; lia|].
  rewrite node_leaves_merged, fmap_app, sum_list_append. cbn [freq]. lia.
Qed.

Lemma node_leaves_symbols node :
  tree_node node → (node_leaves node).*1 = node_symbols node.
Proof.
  induction 1 as [s f|f l r Hl IHl Hr IHr]; [done|].
  by rewrite node_leaves_merged, fmap_app, node_symbols_merged, IHl, IHr.
Qed.

Lemma leaves_of_items freq_dict :
  (leaf_of_item <$> freq_dict) ≫= node_leaves = freq_dict.
Proof.
  induction freq_dict as [|[s f] fd IH]; [done|].
  rewrite fmap_cons, bind_cons, IH. done.
Qed.

Lemma Forall_huffman_leaves freq_dict :
  Forall huffman_tree (leaf_of_item <$> freq_dict : list (Node Symbol)).
Proof.
  apply Forall_fmap, Forall_forall. intros [s f] _. apply huffman_leaf.
Qed.

Lemma build_heap_ordered freq_dict self self' :
  heap_ordered freq (heap self) → _build_heap self freq_dict = Ok self' →
  heap_ordered freq (heap self').
Proof.
  revert self. induction freq_dict as [|item fd IH]; intros self Hord.
  { by intros [= <-]. }
  unfold _build_heap. cbn [for_each].
  destruct (heappush Node_lt (heap self) _) as [h1|e] eqn:Hpush; [|done].
  rewrite !bind_Ok. intros Hrec. apply (IH (set_heap self h1)); [|done].
  cbn [heap set_heap].
  by eapply (heappush_ordered Node_lt freq Node_lt_freq).
Qed.

(** One turn of the loop of [_merge_nodes]. *)
Lemma merge_nodes_turn_perm (fuel : nat) self :
  heap_ordered freq (heap self) → 2 ≤ length (heap self) →
  ∃ node1 node2 rest h,
    node1 :: node2 :: rest ≡ₚ heap self ∧
    freq node1 ≤ freq node2 ∧
    Forall (λ node, freq node2 ≤ freq node) rest ∧
    h ≡ₚ mkNode None (freq node1 + freq node2) (Some node1) (Some node2)
           :: rest ∧
    heap_ordered freq h ∧
    _merge_nodes_loop (S fuel) self =
      _merge_nodes_loop fuel (set_heap self h).
Proof.
  intros Hord Hlen. rewrite merge_nodes_loop_S, decide_True by lia.
  destruct (heappop_perm Node_lt (heap self)) as (node1 & h1 & Hpop1 & Hp1).
  { intros E. rewrite E in Hlen. simpl in Hlen. lia. }
  destruct (heappop_ordered Node_lt freq Node_lt_freq _ _ _ Hord Hpop1)
    as [Hord1 Hmin1].
  assert (length h1 = length (heap self) - 1) as Hlen1
    by (rewrite <- Hp1; simpl; lia).
  destruct (heappop_perm Node_lt h1) as (node2 & h2 & Hpop2 & Hp2).
  { intros E. rewrite E in Hlen1. simpl in Hlen1. lia. }
  destruct (heappop_ordered Node_lt freq Node_lt_freq _ _ _ Hord1 Hpop2)
    as [Hord2 Hmin2].
  set (merged := mkNode None (freq node1 + freq node2)
                        (Some node1) (Some node2)).
  destruct (heappush_perm Node_lt h2 merged) as (h3 & Hpush & Hp3).
  pose proof (heappush_ordered Node_lt freq Node_lt_freq _ _ _ Hord2 Hpush)
    as Hord3.
  exists node1, node2, h2, h3. split_and!.
  - by rewrite Hp2.
  - apply Hmin1. rewrite <- Hp1, <- Hp2.
    apply list_elem_of_further, list_elem_of_here.
  - apply Forall_forall. intros node Hn. apply Hmin2.
    rewrite <- Hp2. by apply list_elem_of_further.
  - done.
  - done.
  - rewrite Hpop1, bind_Ok. cbn [fst snd]. rewrite Hpop2, bind_Ok.
    cbn [fst snd]. fold merged. by rewrite Hpush, bind_Ok.
Qed.

Lemma merge_nodes_loop_huffman (fuel : nat) self :
  length (heap self) ≤ fuel → Forall huffman_tree (heap self) →
  heap_ordered freq (heap self) →
  ∃ h, _merge_nodes_loop fuel self = Ok (set_heap self h) ∧
       Forall huffman_tree h ∧
       h ≫= node_leaves ≡ₚ heap self ≫= node_leaves ∧
       length h = length (heap self) `min` 1.
Proof.
  revert self. induction fuel as [|fuel IH]; intros self Hfuel Hwf Hord.
  { exists (heap self). rewrite set_heap_id. simpl. split_and!; [done..|lia]. }
  destruct (decide (2 ≤ length (heap self))) as [Hlen|Hlen].
  2:{ exists (heap self). rewrite merge_nodes_loop_S, decide_False by lia.
      rewrite set_heap_id. split_and!; [done..|lia]. }
  destruct (merge_nodes_turn_perm fuel self Hord Hlen)
    as (node1 & node2 & rest & h & Hperm & Hle & Hrest & Hh & Hordh & ->).
  rewrite <- Hperm in Hwf.
  apply Forall_cons in Hwf as [Hn1 Hwf]. apply Forall_cons in Hwf as [Hn2 Hwf].
  assert (length (heap self) = S (S (length rest))) as Hl
    by (by rewrite <- Hperm).
  destruct (IH (set_heap self h)) as (h' & Hrec & Hwf' & Hleaves & Hlen').
  - cbn [heap set_heap]. rewrite Hh. simpl. lia.
  - cbn [heap set_heap]. rewrite Hh. apply Forall_cons. split; [|done].
    by apply huffman_merged.
  - done.
  - cbn [heap set_heap] in *. exists h'. split_and!; [done | done | |].
    + rewrite Hleaves, Hh, <- Hperm. rewrite !bind_cons.
      rewrite node_leaves_merged. by rewrite app_assoc.
    + rewrite Hlen', Hh. simpl. lia.
Qed.
End huffman_build.

(** * More on the bit layer *)

Section bit_layer_more.
Implicit Types (s e : bits) (bs : list nat).

#[local] Ltac Zify.zify_post_hook ::= Z.div_mod_to_equations.

Lemma foldl_bits_bound (a : nat) s :
  foldl (λ acc b, 2 * acc + bit_value b) a s < (a + 1) * 2 ^ length s.
Proof.
  revert a. induction s as [|b s IH]; intros a; [simpl; lia|].
  cbn [foldl length]. rewrite Nat.pow_succ_r'.
  specialize (IH (2 * a + bit_value b)).
  destruct b; simpl bit_value in *; nia.
Qed.

(** A numeral of [k] bits denotes a number below [2 ^ k]. *)
Lemma int2_bound s :
  s ≠ [] → ∃ n, int2 s = Ok n ∧ n < 2 ^ length s.
Proof.
  intros Hs. destruct s as [|b s]; [done|].
  eexists. split; [reflexivity|].
  pose proof (foldl_bits_bound 0 (b :: s)). lia.
Qed.

Lemma mapM_result_Forall {A B} (f : A → result B) (P : B → Prop) (l : list A) :
  (∀ x, x ∈ l → ∃ y, f x = Ok y ∧ P y) →
  ∃ ys, mapM f l = Ok ys ∧ length ys = length l ∧ Forall P ys.
Proof.
  induction l as [|x l IH]; intros Hf.
  { exists []. by split_and!. }
  destruct (Hf x) as (y & Hy & HP); [apply list_elem_of_here|].
  destruct IH as (ys & Hys & Hlen & HPs).
  { intros x' Hx'. apply Hf. by apply list_elem_of_further. }
  exists (y :: ys). cbn [mapM]. rewrite Hy, bind_Ok, Hys.
  split_and!; [done | simpl; lia | by constructor].
Qed.

Lemma elem_of_range_step8 (n i : nat) : i ∈ range_step n 8 → i < n.
Proof.
  unfold range_step. intros (k & -> & Hk)%list_elem_of_fmap.
  apply elem_of_seq in Hk. lia.
Qed.

Lemma length_range_step8 (n : nat) : length (range_step n 8) = (n + 7) / 8.
Proof. unfold range_step. rewrite length_fmap, length_seq. lia. Qed.

(** Every group that [_get_byte_array] hands to [int] is a non-empty
    numeral of at most 8 bits. *)
Lemma group_is_byte s (i : nat) :
  i < length s →
  ∃ n, int2 (slice s i (i + 8)) ≫= byte_item = Ok n ∧ n < 256.
Proof.
  intros Hi.
  destruct (int2_bound (slice s i (i + 8))) as (n & -> & Hn).
  { unfold slice. intros E%(f_equal length).
    rewrite length_take, length_drop in E. simpl in E. lia. }
  assert (n < 256) as Hb.
  { eapply Nat.lt_le_trans; [exact Hn|].
    change 256 with (2 ^ 8). apply Nat.pow_le_mono_r; [done|].
    unfold slice. rewrite length_take. lia. }
  exists n. rewrite bind_Ok. unfold byte_item. by rewrite decide_True.
Qed.

Lemma get_byte_array_bytes s :
  ∃ bs, _get_byte_array s = Ok bs ∧ Forall (λ b, b < 256) bs.
Proof.
  destruct (mapM_result_Forall
              (λ i, int2 (slice s i (i + 8)) ≫= byte_item) (λ b, b < 256)
              (range_step (length s) 8)) as (bs & Hbs & _ & Hlt).
  { intros i Hi%elem_of_range_step8. by apply group_is_byte. }
  by exists bs.
Qed.

(** X1. [_get_byte_array] never raises: whatever the bit string, every
    group handed to [int] is a non-empty numeral of at most 8 bits. The
    result has one byte for every started group of 8 bits, and every byte
    is below 256. *)
Theorem get_byte_array_total s :
  ∃ bs, _get_byte_array s = Ok bs ∧
        length bs = (length s + 7) / 8 ∧
        Forall (λ b, b < 256) bs.
Proof.
  unfold _get_byte_array. rewrite <- length_range_step8.
  apply mapM_result_Forall. intros i Hi%elem_of_range_step8.
  by apply group_is_byte.
Qed.

Lemma length_pos_bin (p : positive) (k : nat) :
  Pos.to_nat p < 2 ^ k → length (pos_bin p) ≤ k.
Proof.
  revert k. induction p as [p IH|p IH|]; intros k Hp.
  - destruct k as [|k]; [simpl in Hp; lia|].
    rewrite Nat.pow_succ_r' in Hp. cbn [pos_bin]. rewrite length_app.
    specialize (IH k). simpl. lia.
  - destruct k as [|k]; [simpl in Hp; lia|].
    rewrite Nat.pow_succ_r' in Hp. cbn [pos_bin]. rewrite length_app.
    specialize (IH k). simpl. lia.
  - destruct k as [|k]; [simpl in Hp; lia|]. simpl. lia.
Qed.

(** A number below 256 is formatted on exactly 8 bits. *)
Lemma length_format_08b (n : nat) : n < 256 → length (format_08b n) = 8.
Proof.
  intros Hn. unfold format_08b. rewrite length_app, length_replicate.
  assert (1 ≤ length (bin n) ≤ 8); [|lia]. split.
  - pose proof (bin_nonempty n). destruct (bin n); [done|simpl; lia].
  - unfold bin. destruct (N.of_nat n) as [|p] eqn:E; [simpl; lia|].
    apply length_pos_bin. change (2 ^ 8) with 256. lia.
Qed.

(** X2. Expanding bytes into bits and grouping the bits into bytes gives
    the bytes back, for every list of values that a [bytearray] can
    hold. *)
Theorem bytes_bits_bytes_roundtrip bs :
  Forall (λ b, b < 256) bs → _get_byte_array (bytes_to_bits bs) = Ok bs.
Proof.
  induction 1 as [|b bs Hb _ IH]; [done|].
  rewrite bytes_to_bits_cons, get_byte_array_app
    by (by apply length_format_08b).
  rewrite int2_format_08b, bind_Ok. unfold byte_item.
  rewrite decide_True by done. by rewrite bind_Ok, IH.
Qed.

End bit_layer_more.

Lemma bytes_bits_bytes_roundtrip_witness :
  Forall (λ b, b < 256) [1; 124; 138; 248] ∧
  _get_byte_array (bytes_to_bits [1; 124; 138; 248]) = Ok [1; 124; 138; 248].
Proof.
  assert (Forall (λ b, b < 256) [1; 124; 138; 248]) as Hb
    by (repeat (apply Forall_cons_2; [simpl; lia|]); apply Forall_nil_2).
  split; [exact Hb|].
  exact (bytes_bits_bytes_roundtrip [1; 124; 138; 248] Hb).
Defined.

(** * More on encoding and decoding *)

Section codec_more.
Context {Symbol : Type} `{Countable Symbol}.
Implicit Types (self : HuffmanCoding Symbol) (data out : list Symbol).
Implicit Types (c acc e : bits) (cs : list bits).

Lemma mapM_getitem_cases self data :
  (∃ cs, Forall2 (λ s c, codes self !! s = Some c) data cs ∧
         mapM (codes_getitem self) data = Ok cs) ∨
  (Exists (λ s, codes self !! s = None) data ∧
   mapM (codes_getitem self) data = Raise KeyError).
Proof.
  induction data as [|s data IH]; [left; by exists []|].
  assert (mapM (codes_getitem self) (s :: data) =
            c ← codes_getitem self s;
            k ← mapM (codes_getitem self) data; Ok (c :: k)) as -> by done.
  destruct (codes self !! s) as [c|] eqn:Hc.
  - assert (codes_getitem self s = Ok c) as ->
      by (unfold codes_getitem; by rewrite Hc).
    rewrite bind_Ok. destruct IH as [(cs & Hcs & ->)|[Hex ->]].
    + left. exists (c :: cs). split; [by constructor|done].
    + right. split; [by apply Exists_cons_tl|done].
  - assert (codes_getitem self s = Raise KeyError) as ->
      by (unfold codes_getitem; by rewrite Hc).
    right. split; [by apply Exists_cons_hd|done].
Qed.

(** X4. [_get_encoded_data] either returns the codes of the symbols,
    concatenated in order, or raises [KeyError], and it raises exactly
    when some symbol of the data has no entry in [codes]. *)
Theorem get_encoded_data_KeyError self data :
  (∃ cs, Forall2 (λ s c, codes self !! s = Some c) data cs ∧
         _get_encoded_data self data = Ok (mjoin cs)) ∨
  (Exists (λ s, codes self !! s = None) data ∧
   _get_encoded_data self data = Raise KeyError).
Proof.
  unfold _get_encoded_data.
  destruct (mapM_getitem_cases self data) as [(cs & Hcs & ->)|[Hex ->]].
  - left. by exists cs.
  - by right.
Qed.

Lemma get_encoded_data_Ok self data e :
  _get_encoded_data self data = Ok e →
  ∃ cs, Forall2 (λ s c, codes self !! s = Some c) data cs ∧ e = mjoin cs.
Proof.
  unfold _get_encoded_data.
  destruct (mapM_getitem_cases self data) as [(cs & Hcs & ->)|[Hex ->]];
    [|done].
  rewrite bind_Ok. intros [= <-]. by exists cs.
Qed.

(** What the loop of [_decode_data] has established after any number of
    bits. *)
Lemma decode_loop_inv self (bit_string : bits) :
  ∃ cs,
    Forall2 (λ s c, reverse_mapping self !! c = Some s ∧ 1 ≤ length c ∧
                    ∀ k, 1 ≤ k < length c →
                         reverse_mapping self !! take k c = None)
            (_decode_loop self bit_string).2 cs ∧
    bit_string = mjoin cs ++ (_decode_loop self bit_string).1 ∧
    ∀ k, 1 ≤ k ≤ length (_decode_loop self bit_string).1 →
         reverse_mapping self !! take k (_decode_loop self bit_string).1
           = None.
Proof.
  induction bit_string as [|b bs IH] using rev_ind.
  { exists []. split_and!; [constructor | done |]. simpl. lia. }
  destruct IH as (cs & Hcs & Hbits & Hacc).
  rewrite decode_loop_app. cbn [foldl].
  destruct (_decode_loop self bs) as [acc out]. cbn [fst snd] in *.
  unfold _decode_step. cbn [fst snd].
  destruct (reverse_mapping self !! (acc ++ [b])) as [s|] eqn:Hl.
  - exists (cs ++ [acc ++ [b]]). cbn [fst snd]. split_and!.
    + apply Forall2_app; [done|]. constructor; [|constructor].
      split_and!; [done | rewrite length_app; simpl; lia |].
      intros k Hk. rewrite length_app in Hk. simpl in Hk.
      rewrite take_app_le by lia. apply Hacc. lia.
    + rewrite Hbits, join_app. simpl. by rewrite !app_nil_r, app_assoc.
    + simpl. lia.
  - exists cs. cbn [fst snd]. split_and!; [done | by rewrite Hbits, app_assoc |].
    intros k Hk. rewrite length_app in Hk. simpl in Hk.
    destruct (decide (k = length acc + 1)) as [->|Hne].
    + rewrite take_ge by (rewrite length_app; simpl; lia). done.
    + rewrite take_app_le by lia. apply Hacc. lia.
Qed.

(** X5. For every table and every bit string, [_decode_data] returns;
    each symbol of the output answers for one non-empty code of
    [reverse_mapping], the shortest key that the bits at that point start
    with; these codes in order, followed by the bits that remain in
    [current_code], spell the input, and no prefix of the remainder is a
    key. In particular the output is never longer than the input. *)
Theorem decode_data_sound self (bit_string : bits) :
  ∃ out acc cs,
    _decode_data self bit_string = Ok out ∧
    (_decode_loop self bit_string).1 = acc ∧
    Forall2 (λ s c, reverse_mapping self !! c = Some s ∧ 1 ≤ length c ∧
                    ∀ k, 1 ≤ k < length c →
                         reverse_mapping self !! take k c = None) out cs ∧
    bit_string = mjoin cs ++ acc ∧
    (∀ k, 1 ≤ k ≤ length acc → reverse_mapping self !! take k acc = None) ∧
    length out ≤ length bit_string.
Proof.
  destruct (decode_loop_inv self bit_string) as (cs & Hcs & Hbits & Hacc).
  exists (_decode_loop self bit_string).2, (_decode_loop self bit_string).1, cs.
  split_and!; [done..|].
  apply (f_equal length) in Hbits. rewrite length_app in Hbits.
  assert (length (_decode_loop self bit_string).2 ≤ length (mjoin cs));
    [|lia].
  clear Hbits Hacc. induction Hcs as [|s c out cs (_ & Hc & _) _ IH]; [done|].
  change (mjoin (c :: cs)) with (c ++ mjoin cs).
  rewrite length_app. simpl. lia.
Qed.

Lemma decode_code_prefix self (s : Symbol) c (rest : bits) out :
  (∀ c1 c2, is_Some (reverse_mapping self !! c1) →
            is_Some (reverse_mapping self !! c2) →
            c1 `prefix_of` c2 → c1 = c2) →
  reverse_mapping self !! [] = None →
  reverse_mapping self !! c = Some s →
  foldl (_decode_step self) ([], out) (c ++ rest) =
    foldl (_decode_step self) ([], out ++ [s]) rest.
Proof.
  intros Hpf Hnil Hc.
  destruct c as [|b c' _] using rev_ind; [congruence|].
  rewrite !foldl_app. f_equal.
  rewrite (decode_steps_no_hit self c' [] out).
  - cbn [foldl app]. unfold _decode_step. cbn [fst snd]. by rewrite Hc.
  - intros k Hk. cbn [app].
    destruct (reverse_mapping self !! take k c') as [s'|] eqn:Hl; [|done].
    exfalso.
    assert (take k c' = c' ++ [b]) as E.
    { apply Hpf; [by eexists | by eexists |].
      exists (drop k c' ++ [b]). by rewrite app_assoc, take_drop. }
    apply (f_equal length) in E.
    rewrite length_take, length_app in E. simpl in E. lia.
Qed.

(** X6. Whatever the origin of the tables: when every entry of [codes]
    has its mirror entry in [reverse_mapping], no key of
    [reverse_mapping] is a proper prefix of another and the empty string
    is no key, decoding what [_get_encoded_data] returns gives the data
    back. *)
Theorem prefix_code_roundtrip self data e :
  (∀ s c, codes self !! s = Some c → reverse_mapping self !! c = Some s) →
  (∀ c1 c2, is_Some (reverse_mapping self !! c1) →
            is_Some (reverse_mapping self !! c2) →
            c1 `prefix_of` c2 → c1 = c2) →
  reverse_mapping self !! [] = None →
  _get_encoded_data self data = Ok e →
  _decode_data self e = Ok data.
Proof.
  intros Hmirror Hpf Hnil (cs & Hcs & ->)%get_encoded_data_Ok.
  unfold _decode_data, _decode_loop. f_equal.
  assert (∀ out, foldl (_decode_step self) ([], out) (mjoin cs)
                 = ([], out ++ data)) as Hdec; [|by rewrite Hdec].
  induction Hcs as [|s c data cs Hc _ IH]; intros out.
  - by rewrite app_nil_r.
  - cbn [mjoin list_join].
    rewrite (decode_code_prefix self s c) by auto.
    rewrite IH. by rewrite <- app_assoc.
Qed.
End codec_more.

Lemma prefix_code_roundtrip_witness :
  (∀ s c, codes two_code_coding !! s = Some c →
          reverse_mapping two_code_coding !! c = Some s) ∧
  (∀ c1 c2, is_Some (reverse_mapping two_code_coding !! c1) →
            is_Some (reverse_mapping two_code_coding !! c2) →
            c1 `prefix_of` c2 → c1 = c2) ∧
  reverse_mapping two_code_coding !! [] = None ∧
  _get_encoded_data two_code_coding text_abba =
    Ok [false; true; false; true; false; false] ∧
  _decode_data two_code_coding [false; true; false; true; false; false] =
    Ok text_abba.
Proof.
  assert (∀ s c, codes two_code_coding !! s = Some c →
                 reverse_mapping two_code_coding !! c = Some s) as H1.
  { intros s c Hc. cbn [codes two_code_coding] in Hc.
    apply lookup_insert_Some in Hc as [[<- <-]|[_ Hc]];
      [vm_compute; reflexivity|].
    apply lookup_insert_Some in Hc as [[<- <-]|[_ Hc]];
      [vm_compute; reflexivity|].
    by rewrite lookup_empty in Hc. }
  assert (∀ c, is_Some (reverse_mapping two_code_coding !! c) →
               c = [false] ∨ c = [true; false]) as Hkeys.
  { intros c [s Hc]. cbn [reverse_mapping two_code_coding] in Hc.
    apply lookup_insert_Some in Hc as [[<- _]|[_ Hc]]; [by left|].
    apply lookup_insert_Some in Hc as [[<- _]|[_ Hc]]; [by right|].
    by rewrite lookup_empty in Hc. }
  assert (∀ c1 c2, is_Some (reverse_mapping two_code_coding !! c1) →
                   is_Some (reverse_mapping two_code_coding !! c2) →
                   c1 `prefix_of` c2 → c1 = c2) as H2.
  { intros c1 c2 [-> | ->]%Hkeys [-> | ->]%Hkeys [k Hk];
      first [reflexivity | discriminate Hk]. }
  assert (reverse_mapping two_code_coding !! [] = None) as H3
    by (vm_compute; reflexivity).
  assert (_get_encoded_data two_code_coding text_abba =
            Ok [false; true; false; true; false; false]) as H4
    by (vm_compute; reflexivity).
  split_and!; [exact H1 | exact H2 | exact H3 | exact H4 |].
  exact (prefix_code_roundtrip two_code_coding text_abba _ H1 H2 H3 H4).
Defined.

(** * The calls [compress] and [decompress] as a whole *)

Section calls_more.
Context {Symbol : Type} `{Countable Symbol}.
Implicit Types (self : HuffmanCoding Symbol) (data : list Symbol).
Implicit Types (d : list (Symbol * nat)) (w : Symbol → nat).

#[local] Ltac Zify.zify_post_hook ::= Z.div_mod_to_equations.

Lemma remove_padding_nonempty (s : bits) :
  s ≠ [] → ∃ out, _remove_padding s = Ok out.
Proof.
  intros Hs. unfold _remove_padding. rewrite slice_0.
  destruct s as [|b s]; [done|]. eexists. reflexivity.
Qed.

(** X7. On a pickled dictionary with its five entries, the first [try]
    block of [decompress] raises in one case only, the empty byte array,
    where [int] is applied to the empty string; the exception is caught
    and [decompress] returns [None]. On every other byte array the block
    runs to its end and leaves a decoded list for the writer. *)
Theorem decompress_fails_only_on_empty_bytes self (data : Container Symbol) :
  (container_bytes data = [] ∧
   decompress_try self data = Raise ValueError ∧
   decompress self data = None) ∨
  (container_bytes data ≠ [] ∧
   ∃ decoded, decompress_try self data = Ok decoded ∧
              decompress self data = Some decoded).
Proof.
  unfold decompress, decompress_try.
  destruct (container_bytes data) as [|b bs] eqn:Hb; [left; done|].
  right. split; [done|].
  destruct (remove_padding_nonempty (bytes_to_bits (b :: bs)))
    as (out & ->).
  { rewrite bytes_to_bits_cons. unfold format_08b.
    pose proof (bin_nonempty b).
    destruct (replicate _ _), (bin b); done. }
  rewrite bind_Ok. eexists. split; reflexivity.
Qed.

Lemma compress_nonempty_Ok (ft : string) (shape : option (list nat)) data :
  data ≠ [] →
  ∃ container, compress (HuffmanCoding_init ft shape) data = Ok container.
Proof.
  intros Hne. destruct data as [|x data]; [done|]. clear Hne.
  set (self0 := HuffmanCoding_init ft shape).
  destruct (build_frequency_dict_inv self0 (x :: data))
    as (Hnd & Hkeys & _ & _).
  set (freq_dict := _build_frequency_dict self0 (x :: data)) in *.
  destruct (build_tables_entries ft shape freq_dict)
    as (self' & es & Hbt & Hes & Hpf & Hcodes & Hrm & _).
  { intros E. assert (x ∈ freq_dict.*1) as Hx
      by (apply Hkeys, list_elem_of_here).
    rewrite E in Hx. by apply elem_of_nil in Hx. }
  { done. }
  destruct (get_encoded_data_codes self' es (x :: data) Hcodes)
    as (cs & Henc & Hcs).
  { intros s Hs. rewrite Hes. by apply Hkeys. }
  destruct (get_byte_array_bits _ _ (length_pad_encoded_data (mjoin cs)))
    as (byte_array & Hbytes & Hbits).
  eexists. rewrite compress_build_tables. fold freq_dict. unfold self0 in *.
  rewrite Hbt, bind_Ok, Henc, bind_Ok, Hbytes, bind_Ok. reflexivity.
Qed.

(** X8. On a fresh instance, [compress] fails on the empty input only,
    with the [IndexError] of the pop from the empty heap: every non-empty
    sequence of symbols, also one that repeats a single symbol, gives a
    container. *)
Theorem compress_fails_only_on_empty (ft : string)
    (shape : option (list nat)) data :
  (data = [] ∧ compress (HuffmanCoding_init ft shape) data = Raise IndexError) ∨
  (data ≠ [] ∧ ∃ container,
     compress (HuffmanCoding_init ft shape) data = Ok container).
Proof.
  destruct data as [|x data]; [left; done|]. right. split; [done|].
  by apply compress_nonempty_Ok.
Qed.

(** The stages that a successful call of [compress] has gone through. *)
Lemma compress_Ok_stages (ft : string) (shape : option (list nat)) data
    (container : Container Symbol) :
  compress (HuffmanCoding_init ft shape) data = Ok container →
  ∃ self' encoded_data,
    build_tables (HuffmanCoding_init ft shape)
      (_build_frequency_dict (HuffmanCoding_init ft shape) data) = Ok self' ∧
    _get_encoded_data self' data = Ok encoded_data ∧
    bytes_to_bits (container_bytes container)
      = (_pad_encoded_data encoded_data).1 ∧
    Forall (λ b, b < 256) (container_bytes container) ∧
    container_reverse_mapping container = reverse_mapping self' ∧
    container_padding container = (_pad_encoded_data encoded_data).2 ∧
    container_type container = ft ∧
    container_shape container = shape.
Proof.
  set (self0 := HuffmanCoding_init ft shape).
  rewrite compress_build_tables. intros Hc.
  destruct data as [|x data]; [done|].
  destruct (build_frequency_dict_inv self0 (x :: data))
    as (Hnd & Hkeys & _ & _).
  set (freq_dict := _build_frequency_dict self0 (x :: data)) in *.
  destruct (build_tables_entries ft shape freq_dict)
    as (self' & es & Hbt & _ & _ & _ & _ & _ & Hft & Hshape).
  { intros E. assert (x ∈ freq_dict.*1) as Hx
      by (apply Hkeys, list_elem_of_here).
    rewrite E in Hx. by apply elem_of_nil in Hx. }
  { done. }
  fold self0 in Hbt. rewrite Hbt, bind_Ok in Hc.
  destruct (_get_encoded_data self' (x :: data)) as [e|exc] eqn:Henc; [|done].
  rewrite bind_Ok in Hc.
  destruct (get_byte_array_bits _ _ (length_pad_encoded_data e))
    as (byte_array & Hbytes & Hbits).
  destruct (get_byte_array_bytes (_pad_encoded_data e).1)
    as (bs & Hbs & Hlt).
  rewrite Hbytes in Hbs. injection Hbs as <-.
  rewrite Hbytes, bind_Ok in Hc. injection Hc as <-.
  exists self', e. cbn. by split_and!.
Qed.

End calls_more.


Section histogram.
Context {Symbol : Type} `{Countable Symbol}.
Implicit Types (self : HuffmanCoding Symbol) (data : list Symbol).
Implicit Types (d : list (Symbol * nat)) (w : Symbol → nat).

Lemma weighted_sum_odict_set d w (k : Symbol) (n : nat) :
  sum_list ((λ it, it.2 * w it.1) <$> odict_set d k n)
    + default 0 (odict_get d k) * w k =
  sum_list ((λ it, it.2 * w it.1) <$> d) + n * w k.
Proof.
  induction d as [|[k0 v0] d IH]; [simpl; lia|].
  cbn [odict_set odict_get]. case_decide as Hk.
  - subst k0. rewrite !fmap_cons. simpl. lia.
  - rewrite !fmap_cons. cbn [sum_list fst snd]. lia.
Qed.

Lemma weighted_sum_frequency_dict self data w :
  sum_list ((λ it, it.2 * w it.1) <$> _build_frequency_dict self data) =
    sum_list (w <$> data).
Proof.
  unfold _build_frequency_dict.
  induction data as [|x data IH] using rev_ind; [done|].
  rewrite foldl_app, fmap_app, sum_list_append. cbn [foldl].
  set (d := foldl defaultdict_incr [] data) in *.
  pose proof (weighted_sum_odict_set d w x (default 0 (odict_get d x) + 1))
    as Hs.
  change (defaultdict_incr d x)
    with (odict_set d x (default 0 (odict_get d x) + 1)).
  change (sum_list (w <$> [x])) with (w x + 0). lia.
Qed.

(** X10. The frequency dictionary is a histogram of the data: for every
    weight given to the symbols, the weights of the data add up to the
    same total as the weights of the keys, each taken as many times as
    its count says. *)
Theorem frequency_dict_weighted_sum self data w :
  sum_list (w <$> data) =
    sum_list ((λ it, it.2 * w it.1) <$> _build_frequency_dict self data).
Proof. symmetry. apply weighted_sum_frequency_dict. Qed.

(** X11. The number of bits that [_get_encoded_data] returns is the sum,
    over the entries of the frequency dictionary of the data, of the
    count times the length of the code of the key. *)
Theorem encoded_length_weighted self data (encoded_data : bits) :
  _get_encoded_data self data = Ok encoded_data →
  length encoded_data =
    sum_list ((λ it, it.2 * length (default [] (codes self !! it.1)))
                <$> _build_frequency_dict self data).
Proof.
  intros (cs & Hcs & ->)%get_encoded_data_Ok.
  rewrite (weighted_sum_frequency_dict self data
             (λ s, length (default [] (codes self !! s)))).
  rewrite length_join. f_equal.
  induction Hcs as [|s c data cs Hc _ IH]; [done|].
  rewrite !fmap_cons, IH, Hc. done.
Qed.
End histogram.

Lemma encoded_length_weighted_witness :
  _get_encoded_data two_code_coding text_abba =
    Ok [false; true; false; true; false; false] ∧
  length [false; true; false; true; false; false] =
    sum_list ((λ it, it.2 * length (default [] (codes two_code_coding !! it.1)))
                <$> _build_frequency_dict two_code_coding text_abba).
Proof.
  split; [vm_compute; reflexivity|].
  apply (encoded_length_weighted two_code_coding text_abba).
  vm_compute; reflexivity.
Defined.

Section tree_shape.
Context {Symbol : Type}.
Implicit Types (node l r : Node Symbol) (code b : bits).



End tree_shape.

(** * The tree that the heap delivers *)

Section huffman_results.
Context {Symbol : Type} `{Countable Symbol}.
Implicit Types (self : HuffmanCoding Symbol) (h : list (Node Symbol)).
Implicit Types (node root : Node Symbol) (freq_dict : list (Symbol * nat)).
Implicit Types (data : list Symbol).

Lemma heap_ordered_nil : heap_ordered freq ([] : list (Node Symbol)).
Proof. intros i x p _ Hx. done. Qed.

Lemma sum_leaves_freq h :
  Forall huffman_tree h →
  sum_list (h ≫= node_leaves).*2 = sum_list (freq <$> h).
Proof.
  induction 1 as [|node h Hn _ IH]; [done|].
  rewrite bind_cons, fmap_app, sum_list_append, fmap_cons, IH.
  rewrite <- (huffman_tree_freq node Hn). done.
Qed.

(** X16. [_build_heap] never raises. It adds to the heap one childless
    node per entry of the dictionary, with the symbol and the count of
    the entry, and nothing else; it leaves the other attributes alone;
    and when the heap was ordered by frequency it still is. *)
Theorem build_heap_adds_leaves freq_dict self :
  ∃ h, _build_heap self freq_dict = Ok (set_heap self h) ∧
       h ≡ₚ heap self ++ (leaf_of_item <$> freq_dict) ∧
       (heap_ordered freq (heap self) → heap_ordered freq h).
Proof.
  destruct (build_heap_perm freq_dict self) as (h & Hb & Hperm).
  exists h. split_and!; [done..|]. intros Hord.
  by apply (build_heap_ordered freq_dict self (set_heap self h)).
Qed.

(** X17. One turn of the loop of [_merge_nodes] on a heap ordered by
    frequency: the two nodes taken off are of least frequency, the first
    no more frequent than the second and the second no more frequent
    than any node that stays; they become the left and the right child
    of a new node that carries the sum of their frequencies; and the
    heap is ordered again. *)
Theorem merge_nodes_turn (fuel : nat) self :
  heap_ordered freq (heap self) → 2 ≤ length (heap self) →
  ∃ node1 node2 rest h,
    node1 :: node2 :: rest ≡ₚ heap self ∧
    freq node1 ≤ freq node2 ∧
    Forall (λ node, freq node2 ≤ freq node) rest ∧
    h ≡ₚ mkNode None (freq node1 + freq node2) (Some node1) (Some node2)
           :: rest ∧
    heap_ordered freq h ∧
    _merge_nodes_loop (S fuel) self =
      _merge_nodes_loop fuel (set_heap self h).
Proof. apply merge_nodes_turn_perm. Qed.

Lemma merge_nodes_root self :
  heap self ≠ [] → Forall huffman_tree (heap self) →
  heap_ordered freq (heap self) →
  ∃ root, _merge_nodes self = Ok (set_heap self [root]) ∧
          huffman_tree root ∧
          node_leaves root ≡ₚ heap self ≫= node_leaves.
Proof.
  intros Hne Hwf Hord. unfold _merge_nodes.
  destruct (merge_nodes_loop_huffman (length (heap self)) self)
    as (h & -> & Hwf' & Hleaves & Hlen); [done..|].
  destruct (heap self) as [|n0 h0] eqn:Hh; [done|].
  destruct h as [|root [|? ?]]; [simpl in Hlen; lia | | simpl in Hlen; lia].
  exists root. split_and!; [done | by apply Forall_cons in Hwf' as [? _] |].
  rewrite <- Hleaves. by rewrite bind_singleton.
Qed.

(** X18. On a non-empty heap that is ordered by frequency and holds
    trees of the kind that [_merge_nodes] builds, [_merge_nodes] never
    raises and leaves exactly one node. That node is the root of a tree
    with the same leaves, each with its frequency; at every merged node
    the frequency is the sum of the frequencies of the two children and
    the left child is not more frequent than the right one; the frequency
    of the root is the total of the frequencies that were on the heap. *)
Theorem merge_nodes_single_tree self :
  heap self ≠ [] → Forall huffman_tree (heap self) →
  heap_ordered freq (heap self) →
  ∃ root, _merge_nodes self = Ok (set_heap self [root]) ∧
          huffman_tree root ∧
          node_leaves root ≡ₚ heap self ≫= node_leaves ∧
          freq root = sum_list (freq <$> heap self).
Proof.
  intros Hne Hwf Hord.
  destruct (merge_nodes_root self Hne Hwf Hord) as (root & Hm & Hr & Hl).
  exists root. split_and!; [done..|].
  by rewrite (huffman_tree_freq root Hr), Hl, sum_leaves_freq.
Qed.

Lemma build_tables_huffman (ft : string) (shape : option (list nat))
    freq_dict :
  freq_dict ≠ [] →
  let self := HuffmanCoding_init ft shape in
  ∃ root, huffman_tree root ∧ node_leaves root ≡ₚ freq_dict ∧
          (_build_heap self freq_dict ≫= _merge_nodes)
            = Ok (set_heap self [root]) ∧
          build_tables self freq_dict = Ok (_build_codes_node root [] self).
Proof.
  intros Hne self. unfold build_tables.
  destruct (build_heap_perm freq_dict self) as (h & Hb & Hperm).
  simpl in Hperm.
  assert (heap_ordered freq h) as Hord.
  { apply (build_heap_ordered freq_dict self (set_heap self h)); [|done].
    apply heap_ordered_nil. }
  rewrite Hb, !bind_Ok.
  destruct (merge_nodes_root (set_heap self h)) as (root & Hm & Hr & Hl).
  - cbn [heap set_heap]. intros E. rewrite E in Hperm.
    apply Permutation_nil_l in Hperm. by destruct freq_dict.
  - cbn [heap set_heap]. rewrite Hperm. apply Forall_huffman_leaves.
  - done.
  - cbn [heap set_heap] in Hl. rewrite Hm, bind_Ok. exists root.
    split_and!; [done | | done | done].
    by rewrite Hl, Hperm, leaves_of_items.
Qed.

(** X19. After the frequency analysis of a non-empty input, [_build_heap]
    and [_merge_nodes] leave on the heap of a fresh instance a single
    tree: its leaves are the entries of the frequency dictionary, and
    the frequency of its root is the length of the input. *)
Theorem huffman_tree_of_data (ft : string) (shape : option (list nat)) data :
  data ≠ [] →
  let self := HuffmanCoding_init ft shape in
  ∃ root,
    (_build_heap self (_build_frequency_dict self data) ≫= _merge_nodes)
      = Ok (set_heap self [root]) ∧
    huffman_tree root ∧
    node_leaves root ≡ₚ _build_frequency_dict self data ∧
    freq root = length data.
Proof.
  intros Hne self.
  destruct (build_frequency_dict_inv self data) as (_ & Hkeys & _ & Hsum).
  destruct (build_tables_huffman ft shape (_build_frequency_dict self data))
    as (root & Hr & Hl & Hm & _).
  { intros E. destruct data as [|x data]; [done|].
    assert (x ∈ (_build_frequency_dict self (x :: data)).*1) as Hx
      by (apply Hkeys, list_elem_of_here).
    rewrite E in Hx. by apply elem_of_nil in Hx. }
  exists root. split_and!; [done..|].
  by rewrite (huffman_tree_freq root Hr), Hl.
Qed.
End huffman_results.

Lemma sample_heap_ordered : heap_ordered freq sample_heap.
Proof.
  intros i x p Hi Hx Hp.
  do 3 (destruct i as [|i]; [simpl in *; simplify_eq; simpl; lia|]).
  done.
Qed.

Lemma sample_heap_trees : Forall huffman_tree sample_heap.
Proof. repeat (apply Forall_cons_2; [apply huffman_leaf|]). apply Forall_nil_2. Qed.

Lemma merge_nodes_turn_witness :
  heap_ordered freq (heap sample_heap_coding) ∧
  2 ≤ length (heap sample_heap_coding) ∧
  ∃ node1 node2 rest h,
    node1 :: node2 :: rest ≡ₚ heap sample_heap_coding ∧
    freq node1 ≤ freq node2 ∧
    Forall (λ node, freq node2 ≤ freq node) rest ∧
    h ≡ₚ mkNode None (freq node1 + freq node2) (Some node1) (Some node2)
           :: rest ∧
    heap_ordered freq h ∧
    _merge_nodes_loop 1 sample_heap_coding =
      _merge_nodes_loop 0 (set_heap sample_heap_coding h).
Proof.
  split; [exact sample_heap_ordered|]. split; [simpl; lia|].
  apply (merge_nodes_turn 0 sample_heap_coding);
    [exact sample_heap_ordered | simpl; lia].
Defined.

Lemma merge_nodes_single_tree_witness :
  heap sample_heap_coding ≠ [] ∧
  Forall huffman_tree (heap sample_heap_coding) ∧
  heap_ordered freq (heap sample_heap_coding) ∧
  ∃ root, _merge_nodes sample_heap_coding
            = Ok (set_heap sample_heap_coding [root]) ∧
          huffman_tree root ∧
          node_leaves root ≡ₚ heap sample_heap_coding ≫= node_leaves ∧
          freq root = sum_list (freq <$> heap sample_heap_coding).
Proof.
  assert (heap sample_heap_coding ≠ []) as Hne by discriminate.
  split_and!; [exact Hne | exact sample_heap_trees | exact sample_heap_ordered |].
  exact (merge_nodes_single_tree sample_heap_coding Hne sample_heap_trees
           sample_heap_ordered).
Defined.

Lemma huffman_tree_of_data_witness :
  text_abracadabra ≠ [] ∧
  ∃ root,
    (_build_heap text_coding (_build_frequency_dict text_coding text_abracadabra)
       ≫= _merge_nodes) = Ok (set_heap text_coding [root]) ∧
    huffman_tree root ∧
    node_leaves root ≡ₚ _build_frequency_dict text_coding text_abracadabra ∧
    freq root = length text_abracadabra.
Proof.
  assert (text_abracadabra ≠ []) as Hne by discriminate.
  split; [exact Hne|].
  exact (huffman_tree_of_data "txt" None text_abracadabra Hne).
Defined.

Section code_shape.
Context {Symbol : Type} `{Countable Symbol}.
Implicit Types (self : HuffmanCoding Symbol) (root : Node Symbol).
Implicit Types (freq_dict : list (Symbol * nat)).



End code_shape.





Lemma compress_decompress_roundtrip_witness :
  "a"%char ∈ text_abracadabra ∧ "b"%char ∈ text_abracadabra ∧
  "a"%char ≠ "b"%char ∧
  ∃ container,
    compress (HuffmanCoding_init "txt" None) text_abracadabra = Ok container ∧
    ∀ self, decompress_try self container = Ok text_abracadabra ∧
            decompress self container = Some text_abracadabra.
Proof.
  assert ("a"%char ∈ text_abracadabra) as Ha
    by (apply (bool_decide_unpack _); vm_compute; exact I).
  assert ("b"%char ∈ text_abracadabra) as Hb
    by (apply (bool_decide_unpack _); vm_compute; exact I).
  assert ("a"%char ≠ "b"%char) as Hab by discriminate.
  split_and!; [exact Ha | exact Hb | exact Hab |].
  exact (compress_decompress_roundtrip "txt" None text_abracadabra
           "a"%char "b"%char Ha Hb Hab).
Defined.

(** * Documents, file types and paths *)

Section lines.
Context {A : Type} `{EqDecision A} (nl : A).
Implicit Types (s p : list A) (ps : list (list A)).




Lemma str_split_no_sep p : nl ∉ p → str_split nl p = [p].
Proof.
  induction p as [|c p IH]; [done|]. intros Hp.
  apply not_elem_of_cons in Hp as [Hc Hp]. cbn [str_split].
  rewrite decide_False by done. by rewrite IH.
Qed.

Lemma str_split_app_sep p s :
  nl ∉ p → str_split nl (p ++ nl :: s) = p :: str_split nl s.
Proof.
  induction p as [|c p IH]; intros Hp.
  - cbn [app str_split]. by rewrite decide_True.
  - apply not_elem_of_cons in Hp as [Hc Hp].
    rewrite <- app_comm_cons. cbn [str_split].
    rewrite decide_False by done. by rewrite IH.
Qed.

Lemma str_split_join ps :
  ps ≠ [] → Forall (λ p, nl ∉ p) ps → str_split nl (str_join [nl] ps) = ps.
Proof.
  intros Hne Hps. induction Hps as [|p ps Hp Hps IH]; [done|].
  destruct ps as [|p' ps].
  - cbn [str_join]. by apply str_split_no_sep.
  - change (str_join [nl] (p :: p' :: ps))
      with (p ++ nl :: str_join [nl] (p' :: ps)).
    rewrite str_split_app_sep by done. by rewrite IH.
Qed.



(** X21. The texts of the paragraphs of a document with at least one
    paragraph, none of which holds a line feed, are joined by
    [_read_docx] into a text that [_write_docx] cuts into the same
    paragraphs. *)
Theorem read_docx_write_docx ps :
  ps ≠ [] → Forall (λ p, nl ∉ p) ps →
  _write_docx nl (_read_docx nl ps) = ps.
Proof. apply str_split_join. Qed.
End lines.

Lemma read_docx_write_docx_witness :
  sample_paragraphs ≠ [] ∧
  Forall (λ p, "010"%char ∉ p) sample_paragraphs ∧
  _write_docx "010"%char (_read_docx "010"%char sample_paragraphs)
    = sample_paragraphs.
Proof.
  assert (sample_paragraphs ≠ []) as H1 by discriminate.
  assert (Forall (λ p, "010"%char ∉ p) sample_paragraphs) as H2.
  { unfold sample_paragraphs.
    repeat apply Forall_cons_2; [..|apply Forall_nil_2];
      (apply (bool_decide_unpack _); vm_compute; exact I). }
  split_and!; [exact H1 | exact H2 |].
  exact (read_docx_write_docx "010"%char sample_paragraphs H1 H2).
Defined.

Lemma reader_writer_cases (file_type : string) :
  match compress_reader file_type with
  | Ok ReadText | Ok ReadPdf => decompress_writer file_type = Ok WriteText
  | Ok ReadDocx => decompress_writer file_type = Ok WriteDocx
  | Ok ReadImage => decompress_writer file_type = Ok WriteImage
  | Raise exc =>
      exc = ValueError ∧ decompress_writer file_type = Raise ValueError
  end.
Proof.
  unfold compress_reader, decompress_writer, image_types.
  repeat case_decide; simplify_eq; try done;
    repeat match goal with
    | H : _ ∈ _ :: _ |- _ => apply elem_of_cons in H as [H|H]
    | H : _ ∈ [] |- _ => by apply elem_of_nil in H
    | H : ¬ _ ∈ _ :: _ |- _ => apply not_elem_of_cons in H as [? H]
    end; simplify_eq; done.
Qed.

Lemma reader_has_writer (file_type : string) (reader : Reader) :
  compress_reader file_type = Ok reader →
  ∃ writer, decompress_writer file_type = Ok writer.
Proof.
  intros Hr. pose proof (reader_writer_cases file_type) as Hw.
  rewrite Hr in Hw. destruct reader; by eexists.
Qed.

(** X22. The two chains of tests on the file type agree: a type has a
    reader in [compress] exactly when it has a writer in [decompress].
    Text and PDF files are written back by the text writer, documents by
    the document writer, images by the image writer, and for every other
    type both chains raise [ValueError]. *)
Theorem reader_writer_agree (file_type : string) :
  ((∃ reader, compress_reader file_type = Ok reader) ↔
   (∃ writer, decompress_writer file_type = Ok writer)) ∧
  match compress_reader file_type with
  | Ok ReadText | Ok ReadPdf => decompress_writer file_type = Ok WriteText
  | Ok ReadDocx => decompress_writer file_type = Ok WriteDocx
  | Ok ReadImage => decompress_writer file_type = Ok WriteImage
  | Raise exc =>
      exc = ValueError ∧ decompress_writer file_type = Raise ValueError
  end.
Proof.
  split; [|apply reader_writer_cases]. split.
  - intros [reader Hr]. by apply (reader_has_writer _ reader).
  - intros [writer Hw]. pose proof (reader_writer_cases file_type) as Hc.
    destruct (compress_reader file_type) as [reader|exc]; [by eexists|].
    destruct Hc as [_ Hc]. congruence.
Qed.

Section replace.
Context {A : Type} `{EqDecision A}.
Implicit Types (s p old new : list A).

Lemma str_replace_from_skip old new (k : nat) s :
  length s ≤ k → str_replace_from old new k s = [].
Proof.
  revert k. induction s as [|c s IH]; intros k Hk; [done|].
  destruct k as [|k]; [simpl in Hk; lia|].
  cbn [str_replace_from]. apply IH. simpl in Hk. lia.
Qed.

Lemma str_replace_from_whole old new :
  old ≠ [] → str_replace_from old new 0 old = new.
Proof.
  intros Hne. destruct old as [|c o]; [done|].
  cbn [str_replace_from]. rewrite decide_True by done.
  rewrite str_replace_from_skip by (simpl; lia). by rewrite app_nil_r.
Qed.

(** When [old] does not occur in [p] and no occurrence starts in [p] and
    ends in the [old] that follows, only that last [old] is replaced. *)
Lemma str_replace_from_suffix old new p :
  old ≠ [] →
  (∀ i, i < length p → ¬ old `prefix_of` drop i (p ++ old)) →
  str_replace_from old new 0 (p ++ old) = p ++ new.
Proof.
  intros Hne. induction p as [|c p IH]; intros Hno.
  { by apply str_replace_from_whole. }
  rewrite <- !app_comm_cons. cbn [str_replace_from].
  rewrite decide_False by (apply (Hno 0); simpl; lia).
  f_equal. apply IH. intros i Hi. apply (Hno (S i)). simpl. lia.
Qed.
End replace.

Section paths.
Implicit Types (p : list ascii).

(** No occurrence of ".bin" can start in [p] and end in a ".bin" put
    after [p] unless ".bin" occurs in [p]. *)
Lemma dot_bin_no_overlap p (i : nat) :
  (∀ j, ¬ dot_bin `prefix_of` drop j p) → i < length p →
  ¬ dot_bin `prefix_of` drop i (p ++ dot_bin).
Proof.
  intros Hno Hi [k Hk]. apply (Hno i).
  assert (drop i (p ++ dot_bin) = drop i p ++ dot_bin) as E
    by (apply drop_app_le; lia).
  rewrite E in Hk. clear E.
  assert (0 < length (drop i p)) as Hlen by (rewrite length_drop; lia).
  unfold dot_bin in *.
  destruct (drop i p) as [|c0 [|c1 [|c2 [|c3 q]]]];
    [simpl in Hlen; lia | | | |]; simpl in Hk; try congruence.
  injection Hk as -> -> -> -> _. by exists q.
Qed.

(** X3. The names of the files: when ".bin" does not occur in the path
    of the compressed file's source, [decompress] applied to the path
    that [compress] returned writes to the source path followed by
    "_decompressed." and the file type. *)
Theorem decompress_output_path_of_compress p (file_type : string) :
  (∀ j, ¬ String.list_ascii_of_string ".bin" `prefix_of` drop j p) →
  decompress_output_path (compress_output_path p) file_type =
    p ++ String.list_ascii_of_string "_decompressed."
      ++ String.list_ascii_of_string file_type.
Proof.
  intros Hno. unfold decompress_output_path, compress_output_path.
  change (String.list_ascii_of_string ".bin") with dot_bin in *.
  unfold str_replace. unfold dot_bin at 2.
  apply str_replace_from_suffix; [done|].
  intros i Hi. by apply dot_bin_no_overlap.
Qed.
End paths.

Lemma decompress_output_path_of_compress_witness :
  (∀ j, ¬ String.list_ascii_of_string ".bin" `prefix_of` drop j sample_path) ∧
  decompress_output_path (compress_output_path sample_path) "txt" =
    String.list_ascii_of_string "uploads/notes.txt_decompressed.txt".
Proof.
  assert (∀ j, ¬ String.list_ascii_of_string ".bin"
                   `prefix_of` drop j sample_path) as Hno.
  { intros j.
    do 18 (destruct j as [|j];
           [apply (bool_decide_unpack _); vm_compute; exact I|]).
    intros [k Hk]. discriminate Hk. }
  split; [exact Hno|].
  exact (decompress_output_path_of_compress sample_path "txt" Hno).
Defined.

(** * The public calls *)

Section public_calls.
Context {Symbol : Type} `{Countable Symbol}.
Implicit Types (self : HuffmanCoding Symbol) (data : list Symbol).
Implicit Types (files : Readers Symbol).

(** After a successful read the instance is as fresh as before, but
    for the shape of the image. *)
Lemma compress_read_fresh (ft : string) files data self' :
  compress_read (HuffmanCoding_init ft None) files = Ok (data, self') →
  (∃ reader, compress_reader ft = Ok reader) ∧
  ∃ shape, self' = HuffmanCoding_init ft shape.
Proof.
  unfold compress_read. cbn [file_type HuffmanCoding_init].
  destruct (compress_reader ft) as [reader|exc]; [|done].
  rewrite bind_Ok. intros Hr. split; [by eexists|].
  destruct reader.
  - destruct (read_text_outcome files); [|done].
    injection Hr as <- <-. by exists None.
  - destruct (read_docx_outcome files); [|done].
    injection Hr as <- <-. by exists None.
  - destruct (read_pdf_outcome files); [|done].
    injection Hr as <- <-. by exists None.
  - destruct (read_image_outcome files) as [[d sh]|]; [|done].
    injection Hr as <- <-. by exists (Some sh).
Qed.

(** The container of a sequence with two distinct symbols decodes to
    the sequence, whatever the instance that decodes it. *)
Lemma roundtrip_two_symbols (ft : string) (shape : option (list nat)) data
    (x y : Symbol) :
  x ∈ data → y ∈ data → x ≠ y →
  ∃ container,
    compress (HuffmanCoding_init ft shape) data = Ok container ∧
    ∀ self, decompress_try self container = Ok data.
Proof.
  intros Hx Hy Hxy. set (self0 := HuffmanCoding_init ft shape).
  destruct (build_frequency_dict_inv self0 data) as (Hnd & Hkeys & _ & _).
  set (freq_dict := _build_frequency_dict self0 data) in *.
  assert (2 ≤ length freq_dict) as H2.
  { rewrite <- (length_fmap fst).
    apply (two_elements_length _ x y); [by apply Hkeys..|done]. }
  destruct (build_tables_entries ft shape freq_dict)
    as (self' & es & Hbt & Hes & Hpf & Hcodes & Hrm & Hlen & _ & _);
    [intros E; rewrite E in H2; simpl in H2; lia | done |].
  specialize (Hlen H2).
  destruct (get_encoded_data_codes self' es data Hcodes)
    as (cs & Henc & Hcs).
  { intros s Hs. rewrite Hes. by apply Hkeys. }
  destruct (get_byte_array_bits _ _ (length_pad_encoded_data (mjoin cs)))
    as (byte_array & Hbytes & Hbits).
  eexists. split.
  { rewrite compress_build_tables. fold freq_dict. unfold self0 in *.
    rewrite Hbt, bind_Ok, Henc, bind_Ok, Hbytes, bind_Ok. reflexivity. }
  intros self. unfold decompress_try.
  cbn [container_bytes container_reverse_mapping].
  rewrite Hbits, remove_padding_padded, bind_Ok.
  unfold _decode_data, _decode_loop. f_equal.
  rewrite (decode_codes _ es data cs []); done.
Qed.

(** X23. The three outcomes of [compress] on a fresh instance. When the
    file type has no reader or the reader raises, the exception is
    caught and the call returns [None]. When the file is read and holds
    no symbol, the call raises [IndexError]: the steps after the read are
    not inside the [try]. In every other case the call reaches the
    [pickle.dump] with a container, and the type recorded in it is one
    for which [decompress] has a writer. *)
Theorem compress_call_outcomes (ft : string) files :
  let self := HuffmanCoding_init ft None in
  (∃ exc, compress_read self files = Raise exc ∧
          compress_call self files = Ok None) ∨
  (∃ self', compress_read self files = Ok ([], self') ∧
            compress_call self files = Raise IndexError) ∨
  (∃ data self' container writer,
     compress_read self files = Ok (data, self') ∧ data ≠ [] ∧
     compress_call self files = Ok (Some container) ∧
     container_type container = ft ∧
     decompress_writer (container_type container) = Ok writer).
Proof.
  intros self. unfold compress_call.
  destruct (compress_read self files) as [[data self']|exc] eqn:Hread.
  2:{ left. by exists exc. }
  right. destruct (compress_read_fresh ft files data self' Hread)
    as [[reader Hreader] [shape ->]].
  destruct data as [|x data].
  { left. eexists. split; [done|]. reflexivity. }
  right.
  destruct (compress_nonempty_Ok ft shape (x :: data)) as [container Hc];
    [done|].
  pose proof Hc as (_ & _ & _ & _ & _ & _ & _ & _ & Hft & _)
    %compress_Ok_stages.
  destruct (reader_has_writer ft reader Hreader) as [writer Hw].
  exists (x :: data), (HuffmanCoding_init ft shape), container, writer.
  rewrite Hc, bind_Ok, Hft. by split_and!.
Qed.

(** X24. The two public calls, end to end. When the file is read into a
    sequence in which at least two distinct symbols occur, [compress]
    reaches the [pickle.dump] with a container; [decompress], on any
    instance, decodes that container into the same sequence and hands it
    to the writer that goes with the file type. *)
Theorem compress_call_decompress_call (ft : string) files data self'
    (x y : Symbol) :
  compress_read (HuffmanCoding_init ft None) files = Ok (data, self') →
  x ∈ data → y ∈ data → x ≠ y →
  ∃ container writer,
    compress_call (HuffmanCoding_init ft None) files = Ok (Some container) ∧
    decompress_writer ft = Ok writer ∧
    ∀ self, decompress_call self container = Some (writer, data).
Proof.
  intros Hread Hx Hy Hxy.
  destruct (compress_read_fresh ft files data self' Hread)
    as [[reader Hreader] [shape ->]].
  destruct (roundtrip_two_symbols ft shape data x y Hx Hy Hxy)
    as (container & Hc & Hd).
  pose proof Hc as (_ & _ & _ & _ & _ & _ & _ & _ & Hft & _)
    %compress_Ok_stages.
  destruct (reader_has_writer ft reader Hreader) as [writer Hw].
  exists container, writer. split_and!; [|done|].
  - unfold compress_call. rewrite Hread, Hc. done.
  - intros self. unfold decompress_call.
    by rewrite (Hd self), Hft, Hw.
Qed.
End public_calls.

Lemma compress_call_decompress_call_witness :
  compress_read (HuffmanCoding_init "txt" None) sample_readers
    = Ok (text_abracadabra, HuffmanCoding_init "txt" None) ∧
  "a"%char ∈ text_abracadabra ∧ "b"%char ∈ text_abracadabra ∧
  "a"%char ≠ "b"%char ∧
  ∃ container writer,
    compress_call (HuffmanCoding_init "txt" None) sample_readers
      = Ok (Some container) ∧
    decompress_writer "txt" = Ok writer ∧
    ∀ self, decompress_call self container = Some (writer, text_abracadabra).
Proof.
  assert ("a"%char ∈ text_abracadabra) as Ha
    by (apply (bool_decide_unpack _); vm_compute; exact I).
  assert ("b"%char ∈ text_abracadabra) as Hb
    by (apply (bool_decide_unpack _); vm_compute; exact I).
  assert ("a"%char ≠ "b"%char) as Hab by discriminate.
  split_and!; [reflexivity | exact Ha | exact Hb | exact Hab |].
  exact (compress_call_decompress_call "txt" sample_readers text_abracadabra
           (HuffmanCoding_init "txt" None) "a"%char "b"%char
           eq_refl Ha Hb Hab).
Defined.
